(** * One-factor LIBOR Market Model simulator

    A shallow embedding of [one_factor_LIBOR_Market_Model] from
    [forward_rate_models/Libor_Market_Model.ipynb], and the properties of
    it that the specification states.

    Modelling conventions.
    - A Python/NumPy float is a real number of [R]: arithmetic is exact, so
      rounding, overflow, [inf] and [nan] are outside the model.  NumPy's
      float division and [np.sqrt] never raise, and neither do [Rdiv] and
      [sqrt]; where a conclusion rests on the value of a quotient or of a
      square root, the theorem takes the operand in its domain (a
      non-zero [N], a positive [time_step], zero rates other than -1).
    - [np.random.standard_normal()] takes the next item of a stream
      [normals] of reals.
    - Module [F64] is the same function on IEEE 754 binary64 numbers,
      with NumPy's exponential, power and draws as parameters; it
      settles what depends on rounding.
    - A Python [int] is a [Z]; a one-dimensional array is a [list R], a
      two-dimensional array a list of rows.  Indexing follows Python:
      a negative index counts from the end, an index out of range raises
      [IndexError].
    - Exceptions are the [Raise] outcomes of an error monad that also
      threads the interpreter's mutable world: the position in the stream
      of standard-normal draws, and a log of the indexed accesses to the
      per-path matrix [forward_rate].
    - The arrays are NumPy arrays and [time_step], [maturity] Python
      floats, as in the notebook's own call. *)

From Stdlib Require Import String Reals Lra Lia ZArith Bool List.
From Corelib Require PrimFloat SpecFloat FloatOps.
Import ListNotations.

Local Open Scope Z_scope.

(** ** Exceptions and outcomes *)

Inductive exn : Type :=
| ValueError (msg : string)
| ZeroDivisionError
| IndexError
| OverflowError.

Inductive outcome (A : Type) : Type :=
| Ok (a : A)
| Raise (e : exn).

Arguments Ok {A} a.
Arguments Raise {A} e.

(** ** The world: random stream position and access log *)

(** An indexed access to the per-path matrix [forward_rate].  A read
    carries the loop indices [(k, j)] of the update it serves. *)
Inductive access : Type :=
| Wr (row col : Z)
| Rd (k j : Z) (row col : Z).

Record world : Type := mkWorld {
  rng_pos : nat;
  trace : list access
}.

Definition M (A : Type) : Type := world -> outcome A * world.

Definition ret {A} (a : A) : M A := fun w => (Ok a, w).

Definition raise {A} (e : exn) : M A := fun w => (Raise e, w).

Definition bind {A B} (c : M A) (k : A -> M B) : M B :=
  fun w =>
    match c w with
    | (Ok a, w') => k a w'
    | (Raise e, w') => (Raise e, w')
    end.

Definition lift {A} (o : outcome A) : M A := fun w => (o, w).

Notation "x <- c ;; k" := (bind c (fun x => k))
  (at level 61, c at next level, right associativity).
Notation "' pat <- c ;; k" := (bind c (fun x => match x with pat => k end))
  (at level 61, pat pattern, c at next level, right associativity).

Definition log (a : access) : M unit :=
  fun w => (Ok tt, mkWorld (rng_pos w) (trace w ++ [a])).

(** ** Python sequences *)

Definition len {A} (a : list A) : Z := Z.of_nat (length a).

(** The position an index denotes in a sequence of [n] items. *)
Definition py_index (n : nat) (i : Z) : option nat :=
  if (0 <=? i) && (i <? Z.of_nat n) then Some (Z.to_nat i)
  else if (- Z.of_nat n <=? i) && (i <? 0) then Some (Z.to_nat (Z.of_nat n + i))
  else None.

Fixpoint list_set {A} (a : list A) (n : nat) (x : A) : list A :=
  match a, n with
  | [], _ => []
  | _ :: t, O => x :: t
  | h :: t, S n' => h :: list_set t n' x
  end.

(** [a[i]] *)
Definition getitem {A} (a : list A) (i : Z) : outcome A :=
  match py_index (length a) i with
  | Some n =>
      match nth_error a n with
      | Some x => Ok x
      | None => Raise IndexError
      end
  | None => Raise IndexError
  end.

(** [a[i] = x] *)
Definition setitem {A} (a : list A) (i : Z) (x : A) : outcome (list A) :=
  match py_index (length a) i with
  | Some n => Ok (list_set a n x)
  | None => Raise IndexError
  end.

(** [range(lo, hi)] *)
Definition range (lo hi : Z) : list Z :=
  map (fun n => lo + Z.of_nat n) (seq 0 (Z.to_nat (hi - lo))).

(** [for i in l: s = body(i, s)], the loop-carried variables being [s]. *)
Fixpoint for_each {S} (l : list Z) (body : Z -> S -> M S) (s : S) : M S :=
  match l with
  | [] => ret s
  | i :: l' => s' <- body i s ;; for_each l' body s'
  end.

Definition for_range {S} (lo hi : Z) (body : Z -> S -> M S) (s : S) : M S :=
  for_each (range lo hi) body s.

(** ** NumPy *)

Definition array : Type := list R.
Definition matrix : Type := list (list R).

Definition negative_dimensions : string := "negative dimensions are not allowed".

(** [np.zeros(n)] *)
Definition np_zeros (n : Z) : outcome array :=
  if n <? 0 then Raise (ValueError negative_dimensions)
  else Ok (repeat 0%R (Z.to_nat n)).

(** [np.zeros((r, c))] *)
Definition np_zeros2 (r c : Z) : outcome matrix :=
  if (r <? 0) || (c <? 0) then Raise (ValueError negative_dimensions)
  else Ok (repeat (repeat 0%R (Z.to_nat c)) (Z.to_nat r)).

(** [np.full((n), v)] *)
Definition np_full (n : Z) (v : R) : outcome array :=
  if n <? 0 then Raise (ValueError negative_dimensions)
  else Ok (repeat v (Z.to_nat n)).

(** [x ** n] for an integer exponent *)
Definition np_power (x : R) (n : Z) : R := powerRZ x n.

(** [m[i][j]] *)
Definition getitem2 (m : matrix) (i j : Z) : outcome R :=
  match getitem m i with
  | Ok row => getitem row j
  | Raise e => Raise e
  end.

(** [m[i][j] = x]: the row [m[i]] is a view, so the write lands in [m]. *)
Definition setitem2 (m : matrix) (i j : Z) (x : R) : outcome matrix :=
  match getitem m i with
  | Ok row =>
      match setitem row j x with
      | Ok row' => setitem m i row'
      | Raise e => Raise e
      end
  | Raise e => Raise e
  end.

(** [a += b] on matrices of one shape *)
Definition matrix_add (a b : matrix) : matrix :=
  map (fun rows => map (fun xy => (fst xy + snd xy)%R) (combine (fst rows) (snd rows)))
      (combine a b).

(** [a / N] for a Python int [N]; NumPy division does not raise. *)
Definition matrix_div (a : matrix) (N : Z) : matrix :=
  map (map (fun x => (x / IZR N)%R)) a.

(** [np.random.standard_normal()]: the next draw of the stream. *)
Definition standard_normal (normals : nat -> R) : M R :=
  fun w => (Ok (normals (rng_pos w)), mkWorld (S (rng_pos w)) (trace w)).

(** ** Python scalars *)

(** [a / b] on Python floats raises on a zero divisor. *)
Definition py_truediv (a b : R) : outcome R :=
  if Req_dec_T b 0 then Raise ZeroDivisionError else Ok (a / b)%R.

(** [int(x)] truncates toward zero. *)
Definition py_int (x : R) : Z :=
  if Rle_dec 0 x then Int_part x else - Int_part (- x).

(** ** The simulator *)

Definition zero_curve_too_short : string :=
  "zero_curve must have at least `steps` elements.".

Definition volatilities_too_short : string :=
  "forward_rate_volatilities must have at least `steps - 1` elements.".

(** [steps = int(maturity / time_step) + 1] *)
Definition number_of_steps (time_step maturity : R) : outcome Z :=
  match py_truediv maturity time_step with
  | Ok q => Ok (py_int q + 1)
  | Raise e => Raise e
  end.

(** The time grid [t]: [t[i] = time; time += time_step]. *)
Definition time_grid (steps : Z) (time_step : R) : M array :=
  t <- lift (np_zeros steps) ;;
  '(t, _) <- for_range 0 steps
       (fun i '(t, time) =>
          t <- lift (setitem t i time) ;;
          ret (t, (time + time_step)%R))
       (t, 0%R) ;;
  ret t.

(** Zero-coupon bond prices:
    [B_0[i] = 1 / (1 + zero_curve[i]) ** (i + 1)]. *)
Definition bond_prices (steps : Z) (zero_curve : array) : M array :=
  B_0 <- lift (np_zeros steps) ;;
  for_range 0 steps
    (fun i B_0 =>
       z <- lift (getitem zero_curve i) ;;
       lift (setitem B_0 i (1 / np_power (1 + z) (i + 1))%R))
    B_0.

(** Initial forward rates:
    [forward_rate_from_zero[i][0] = (1 / Delta[i]) * (B_0[i] / B_0[i + 1] - 1)]. *)
Definition initial_forward_rates (steps : Z) (Delta B_0 : array) : M matrix :=
  forward_rate_from_zero <- lift (np_zeros2 (steps - 1) (steps - 1)) ;;
  for_range 0 (steps - 1)
    (fun i forward_rate_from_zero =>
       d <- lift (getitem Delta i) ;;
       b <- lift (getitem B_0 i) ;;
       b' <- lift (getitem B_0 (i + 1)) ;;
       lift (setitem2 forward_rate_from_zero i 0 ((1 / d) * (b / b' - 1))%R))
    forward_rate_from_zero.

(** Logged accesses to the per-path matrix [forward_rate]. *)
Definition F_get (k j : Z) (forward_rate : matrix) (row col : Z) : M R :=
  _ <- log (Rd k j row col) ;;
  lift (getitem2 forward_rate row col).

Definition F_set (forward_rate : matrix) (row col : Z) (x : R) : M matrix :=
  _ <- log (Wr row col) ;;
  lift (setitem2 forward_rate row col x).

Section Simulator.

Variable normals : nat -> R.

(** The drift accumulator of the update of [forward_rate[k][j + 1]]:
    [sum1 = 0; for i in range(j + 1, k + 1): sum1 += ...]. *)
Definition sum1 (Delta vols : array) (forward_rate : matrix) (k j : Z) : M R :=
  for_range (j + 1) (k + 1)
    (fun i sum1 =>
       d <- lift (getitem Delta i) ;;
       f <- F_get k j forward_rate i j ;;
       v <- lift (getitem vols (i - j - 1)) ;;
       vk <- lift (getitem vols (k - j - 1)) ;;
       d' <- lift (getitem Delta i) ;;
       f' <- F_get k j forward_rate i j ;;
       ret (sum1 + (d * f * v * vk) / (1 + d' * f'))%R)
    0%R.

(** The body of [for j in range(k)]. *)
Definition evolve (Delta vols : array) (forward_rate : matrix) (k j : Z)
  : M matrix :=
  s <- sum1 Delta vols forward_rate k j ;;
  e <- standard_normal normals ;;
  f <- F_get k j forward_rate k j ;;
  v <- lift (getitem vols (k - j - 1)) ;;
  d <- lift (getitem Delta j) ;;
  v' <- lift (getitem vols (k - j - 1)) ;;
  d' <- lift (getitem Delta j) ;;
  F_set forward_rate k (j + 1)
    (f * exp ((s - np_power v 2 / 2) * d + v' * e * sqrt d'))%R.

(** The body of [for n in range(N)], up to the accumulation. *)
Definition simulate_path (steps : Z) (Delta vols : array)
  (forward_rate_from_zero : matrix) : M matrix :=
  forward_rate <- lift (np_zeros2 (steps - 1) (steps - 1)) ;;
  forward_rate <- for_range 0 (steps - 1)
       (fun i forward_rate =>
          x <- lift (getitem2 forward_rate_from_zero i 0) ;;
          F_set forward_rate i 0 x)
       forward_rate ;;
  for_range 1 (steps - 1)
    (fun k forward_rate =>
       for_range 0 k
         (fun j forward_rate => evolve Delta vols forward_rate k j)
         forward_rate)
    forward_rate.

(** The Monte Carlo loop: [forward_rate_mc += forward_rate] per path. *)
Definition monte_carlo (steps : Z) (Delta vols : array)
  (forward_rate_from_zero : matrix) (N : Z) : M matrix :=
  forward_rate_mc <- lift (np_zeros2 (steps - 1) (steps - 1)) ;;
  for_range 0 N
    (fun _ forward_rate_mc =>
       forward_rate <- simulate_path steps Delta vols forward_rate_from_zero ;;
       ret (matrix_add forward_rate_mc forward_rate))
    forward_rate_mc.

Definition one_factor_LIBOR_Market_Model (time_step maturity : R)
  (zero_curve forward_rate_volatilities : array) (N : Z) : M matrix :=
  steps <- lift (number_of_steps time_step maturity) ;;
  if len zero_curve <? steps then
    raise (ValueError zero_curve_too_short)
  else if len forward_rate_volatilities <? steps - 1 then
    raise (ValueError volatilities_too_short)
  else
    t <- time_grid steps time_step ;;
    Delta <- lift (np_full (steps - 1) time_step) ;;
    B_0 <- bond_prices steps zero_curve ;;
    forward_rate_from_zero <- initial_forward_rates steps Delta B_0 ;;
    forward_rate_mc <- monte_carlo steps Delta forward_rate_volatilities
                         forward_rate_from_zero N ;;
    ret (matrix_div forward_rate_mc N).

End Simulator.

(** The input data of the notebook's own call, made with
    [time_step = 0.25], [maturity = len(zero_curve) * time_step] and
    [N = 1000]. *)
Definition notebook_zero_curve : array :=
  [0.0074; 0.0074; 0.0077; 0.0082; 0.0088; 0.0094; 0.0101; 0.0108; 0.0116;
   0.0123; 0.0131]%R.

Definition notebook_volatilities : array :=
  [0.155; 0.20636739; 0.17209861; 0.17219933; 0.1524579; 0.14147795;
   0.12977111; 0.13810532; 0.13595499; 0.13398418]%R.

(** * The simulator on binary64 numbers

    The same function with its floats as IEEE 754 binary64 values and
    NumPy's arithmetic as the primitive operations on them, rounding
    included.  What NumPy takes from the C library and from its random
    generator is not part of the repository and is a parameter: [np.exp],
    the power [x ** n] and the stream of standard-normal draws.
    [np.sqrt] is the correctly rounded square root.  Accesses are not
    logged here. *)

Module F64.

Import PrimFloat.

Definition array : Type := list float.
Definition matrix : Type := list (list float).

(** The functions of NumPy that the simulator calls and the repository
    does not define. *)
Record numpy : Type := mkNumpy {
  np_exp : float -> float;
  np_power : float -> Z -> float;
  normals : nat -> float
}.

(** The binary64 value of a Python int, rounded to nearest. *)
Definition float_of_int (n : Z) : float :=
  FloatOps.SF2Prim
    (SpecFloat.binary_normalize FloatOps.prec FloatOps.emax n 0 false).

Definition cannot_convert_nan : string := "cannot convert float NaN to integer".

(** [a / b] on Python floats raises on a zero divisor. *)
Definition py_truediv (a b : float) : outcome float :=
  if (b =? 0)%float then Raise ZeroDivisionError else Ok (a / b)%float.

(** [int(x)] truncates toward zero, and raises on [nan] and on the
    infinities. *)
Definition py_int (x : float) : outcome Z :=
  match FloatOps.Prim2SF x with
  | SpecFloat.S754_nan => Raise (ValueError cannot_convert_nan)
  | SpecFloat.S754_infinity _ => Raise OverflowError
  | SpecFloat.S754_zero _ => Ok 0
  | SpecFloat.S754_finite s m e =>
      let a := if 0 <=? e then Zpos m * 2 ^ e else Zpos m / 2 ^ (- e) in
      Ok (if s then - a else a)
  end.

(** [np.zeros(n)] *)
Definition np_zeros (n : Z) : outcome array :=
  if n <? 0 then Raise (ValueError negative_dimensions)
  else Ok (repeat 0%float (Z.to_nat n)).

(** [np.zeros((r, c))] *)
Definition np_zeros2 (r c : Z) : outcome matrix :=
  if (r <? 0) || (c <? 0) then Raise (ValueError negative_dimensions)
  else Ok (repeat (repeat 0%float (Z.to_nat c)) (Z.to_nat r)).

(** [np.full((n), v)] *)
Definition np_full (n : Z) (v : float) : outcome array :=
  if n <? 0 then Raise (ValueError negative_dimensions)
  else Ok (repeat v (Z.to_nat n)).

(** [m[i][j]] *)
Definition getitem2 (m : matrix) (i j : Z) : outcome float :=
  match getitem m i with
  | Ok row => getitem row j
  | Raise e => Raise e
  end.

(** [m[i][j] = x] *)
Definition setitem2 (m : matrix) (i j : Z) (x : float) : outcome matrix :=
  match getitem m i with
  | Ok row =>
      match setitem row j x with
      | Ok row' => setitem m i row'
      | Raise e => Raise e
      end
  | Raise e => Raise e
  end.

(** [a += b] on matrices of one shape *)
Definition matrix_add (a b : matrix) : matrix :=
  map (fun rows =>
         map (fun xy => (fst xy + snd xy)%float) (combine (fst rows) (snd rows)))
      (combine a b).

(** [a / N] for a Python int [N] *)
Definition matrix_div (a : matrix) (N : Z) : matrix :=
  map (map (fun x => (x / float_of_int N)%float)) a.

(** [np.random.standard_normal()] *)
Definition standard_normal (np : numpy) : M float :=
  fun w => (Ok (normals np (rng_pos w)), mkWorld (S (rng_pos w)) (trace w)).

(** [steps = int(maturity / time_step) + 1] *)
Definition number_of_steps (time_step maturity : float) : outcome Z :=
  match py_truediv maturity time_step with
  | Ok q =>
      match py_int q with
      | Ok n => Ok (n + 1)
      | Raise e => Raise e
      end
  | Raise e => Raise e
  end.

Definition time_grid (steps : Z) (time_step : float) : M array :=
  t <- lift (np_zeros steps) ;;
  '(t, _) <- for_range 0 steps
       (fun i '(t, time) =>
          t <- lift (setitem t i time) ;;
          ret (t, (time + time_step)%float))
       (t, 0%float) ;;
  ret t.

Definition bond_prices (np : numpy) (steps : Z) (zero_curve : array) : M array :=
  B_0 <- lift (np_zeros steps) ;;
  for_range 0 steps
    (fun i B_0 =>
       z <- lift (getitem zero_curve i) ;;
       lift (setitem B_0 i (1 / np_power np (1 + z) (i + 1))%float))
    B_0.

Definition initial_forward_rates (steps : Z) (Delta B_0 : array) : M matrix :=
  forward_rate_from_zero <- lift (np_zeros2 (steps - 1) (steps - 1)) ;;
  for_range 0 (steps - 1)
    (fun i forward_rate_from_zero =>
       d <- lift (getitem Delta i) ;;
       b <- lift (getitem B_0 i) ;;
       b' <- lift (getitem B_0 (i + 1)) ;;
       lift (setitem2 forward_rate_from_zero i 0 ((1 / d) * (b / b' - 1))%float))
    forward_rate_from_zero.

Definition sum1 (Delta vols : array) (forward_rate : matrix) (k j : Z)
  : M float :=
  for_range (j + 1) (k + 1)
    (fun i sum1 =>
       d <- lift (getitem Delta i) ;;
       f <- lift (getitem2 forward_rate i j) ;;
       v <- lift (getitem vols (i - j - 1)) ;;
       vk <- lift (getitem vols (k - j - 1)) ;;
       d' <- lift (getitem Delta i) ;;
       f' <- lift (getitem2 forward_rate i j) ;;
       ret (sum1 + (d * f * v * vk) / (1 + d' * f'))%float)
    0%float.

Definition evolve (np : numpy) (Delta vols : array) (forward_rate : matrix)
  (k j : Z) : M matrix :=
  s <- sum1 Delta vols forward_rate k j ;;
  e <- standard_normal np ;;
  f <- lift (getitem2 forward_rate k j) ;;
  v <- lift (getitem vols (k - j - 1)) ;;
  d <- lift (getitem Delta j) ;;
  v' <- lift (getitem vols (k - j - 1)) ;;
  d' <- lift (getitem Delta j) ;;
  lift (setitem2 forward_rate k (j + 1)
          (f * np_exp np ((s - np_power np v 2 / 2) * d + v' * e * sqrt d'))%float).

Definition simulate_path (np : numpy) (steps : Z) (Delta vols : array)
  (forward_rate_from_zero : matrix) : M matrix :=
  forward_rate <- lift (np_zeros2 (steps - 1) (steps - 1)) ;;
  forward_rate <- for_range 0 (steps - 1)
       (fun i forward_rate =>
          x <- lift (getitem2 forward_rate_from_zero i 0) ;;
          lift (setitem2 forward_rate i 0 x))
       forward_rate ;;
  for_range 1 (steps - 1)
    (fun k forward_rate =>
       for_range 0 k
         (fun j forward_rate => evolve np Delta vols forward_rate k j)
         forward_rate)
    forward_rate.

Definition monte_carlo (np : numpy) (steps : Z) (Delta vols : array)
  (forward_rate_from_zero : matrix) (N : Z) : M matrix :=
  forward_rate_mc <- lift (np_zeros2 (steps - 1) (steps - 1)) ;;
  for_range 0 N
    (fun _ forward_rate_mc =>
       forward_rate <- simulate_path np steps Delta vols forward_rate_from_zero ;;
       ret (matrix_add forward_rate_mc forward_rate))
    forward_rate_mc.

Definition one_factor_LIBOR_Market_Model (np : numpy)
  (time_step maturity : float)
  (zero_curve forward_rate_volatilities : array) (N : Z) : M matrix :=
  steps <- lift (number_of_steps time_step maturity) ;;
  if len zero_curve <? steps then
    raise (ValueError zero_curve_too_short)
  else if len forward_rate_volatilities <? steps - 1 then
    raise (ValueError volatilities_too_short)
  else
    t <- time_grid steps time_step ;;
    Delta <- lift (np_full (steps - 1) time_step) ;;
    B_0 <- bond_prices np steps zero_curve ;;
    forward_rate_from_zero <- initial_forward_rates steps Delta B_0 ;;
    forward_rate_mc <- monte_carlo np steps Delta forward_rate_volatilities
                         forward_rate_from_zero N ;;
    ret (matrix_div forward_rate_mc N).

(** A NumPy for grids of two points, where no update is made: the power
    is the product of [n] factors, exact wherever the power is a
    binary64 number as the C library's is; the exponential and the
    draws are [nan], so that a call of either would show in the result. *)
Fixpoint power_by_products (x : float) (n : nat) : float :=
  match n with
  | O => 1%float
  | S n' => (power_by_products x n' * x)%float
  end.

Definition numpy_without_updates : numpy :=
  mkNumpy (fun _ => nan) (fun x n => power_by_products x (Z.to_nat n))
    (fun _ => nan).

End F64.

(** * Specification-side definitions *)

(** The value of [a[i]], and 0 where Python raises. *)
Definition item (a : array) (i : Z) : R :=
  match getitem a i with
  | Ok x => x
  | Raise _ => 0%R
  end.

(** The value of [m[i][j]], and 0 where Python raises. *)
Definition cell (m : matrix) (i j : Z) : R :=
  match getitem2 m i j with
  | Ok x => x
  | Raise _ => 0%R
  end.

(** An array of [r] rows of [c] items each. *)
Definition shape (m : matrix) (r c : Z) : Prop :=
  len m = r /\ Forall (fun row => len row = c) m.

(** The matrix after [m[i][j] = x]. *)
Definition mset (m : matrix) (i j : Z) (x : R) : matrix :=
  list_set m (Z.to_nat i) (list_set (nth (Z.to_nat i) m []) (Z.to_nat j) x).

(** [sigma lo hi f] is the sum of [f i] for [i] from [lo] to [hi]. *)
Definition sigma (lo hi : Z) (f : Z -> R) : R :=
  fold_left (fun acc i => (acc + f i)%R) (range lo (hi + 1)) 0%R.

(** One summand of the drift of the update of [F[k][j + 1]], the column
    [j] of the matrix being [prev]. *)
Definition drift_term (Delta vols : array) (prev : Z -> R) (k j i : Z) : R :=
  (item Delta i * prev i * item vols (i - j - 1) * item vols (k - j - 1)
   / (1 + item Delta i * prev i))%R.

Definition drift (Delta vols : array) (prev : Z -> R) (k j : Z) : R :=
  sigma (j + 1) k (drift_term Delta vols prev k j).

(** The value written to [F[k][j + 1]] with the draw [e]. *)
Definition lognormal_step (Delta vols : array) (prev : Z -> R) (k j : Z) (e : R)
  : R :=
  (prev k *
   exp ((drift Delta vols prev k j - item vols (k - j - 1) ^ 2 / 2) * item Delta j
        + item vols (k - j - 1) * e * sqrt (item Delta j)))%R.

(** The index, within a path, of the draw that the update of
    [F[k][j + 1]] consumes: rows [1 .. k-1] took [k (k-1) / 2] draws. *)
Definition draw_index (k j : Z) : nat := Z.to_nat (k * (k - 1) / 2 + j).

(** The accesses the specification allows on an [n] by [n] per-path
    matrix: a write at or below the diagonal, and, while the update of
    [F[k][j + 1]] is computed, a read of column [j] between rows [j + 1]
    and [k]. *)
Definition ok_access (n : Z) (a : access) : Prop :=
  match a with
  | Wr row col => 0 <= col <= row /\ row < n
  | Rd k j row col => col = j /\ 0 <= j /\ j + 1 <= row <= k /\ k < n
  end.

(** [w'] continues [w] with allowed accesses only. *)
Definition extends (n : Z) (w w' : world) : Prop :=
  exists new, trace w' = trace w ++ new /\ Forall (ok_access n) new.

(** Column [j] of the matrix of a path that starts from the initial rates
    [init] at position [p0] of the stream: column 0 is [init], and each
    column is the log-normal step of the one before it. *)
Fixpoint column (normals : nat -> R) (Delta vols : array) (init : Z -> R)
  (p0 : nat) (j : nat) : Z -> R :=
  match j with
  | O => init
  | S j' =>
      fun k =>
        lognormal_step Delta vols (column normals Delta vols init p0 j') k
          (Z.of_nat j') (normals (p0 + draw_index k (Z.of_nat j'))%nat)
  end.

(** Whether [F[row][col]] is set once the rows before [k] are complete and
    row [k] is complete up to column [j]. *)
Definition written (k j row col : Z) : bool :=
  (col =? 0) || ((row <? k) && (col <=? row)) || ((row =? k) && (col <=? j)).

(** Column [j] of the matrix of the path that starts from the initial
    rates of [F0] at position [p0] of the stream. *)
Definition path_column (normals : nat -> R) (Delta vols : array) (F0 : matrix)
  (p0 : nat) (j : Z) : Z -> R :=
  column normals Delta vols (fun k => cell F0 k 0) p0 (Z.to_nat j).

(** The state of the path loops before the update of [F[k][j + 1]]. *)
Definition path_state (normals : nat -> R) (Delta vols : array) (n : Z)
  (F0 : matrix) (p0 : nat) (w0 : world) (k j : Z) (F : matrix) (w : world)
  : Prop :=
  shape F n n /\
  (forall row col, 0 <= row < n -> 0 <= col < n ->
     cell F row col =
     if written k j row col
     then path_column normals Delta vols F0 p0 col row else 0%R) /\
  rng_pos w = (p0 + draw_index k j)%nat /\
  extends n w0 w.

(** What one path computes on an [n] by [n] matrix from position [p0] of
    the stream: the columns of [path_column] on and below the diagonal,
    zero above it. *)
Definition path_matrix (normals : nat -> R) (Delta vols : array) (n : Z)
  (F0 : matrix) (p0 : nat) (F : matrix) : Prop :=
  shape F n n /\
  forall row col, 0 <= row < n -> 0 <= col < n ->
    cell F row col =
    if col <=? row then path_column normals Delta vols F0 p0 col row else 0%R.

(** The accumulator after the paths [Fs], from [acc]. *)
Definition accumulate (Fs : list matrix) (acc : matrix) : matrix :=
  fold_left matrix_add Fs acc.

(** The matrices [Fs] are those of [N] successive paths from position
    [p0] of the stream, each taking [draw_index n 0] draws. *)
Definition paths_from (normals : nat -> R) (Delta vols : array) (n : Z)
  (F0 : matrix) (p0 : nat) (N : Z) (Fs : list matrix) : Prop :=
  length Fs = Z.to_nat N /\
  forall i F, nth_error Fs i = Some F ->
    path_matrix normals Delta vols n F0 (p0 + i * draw_index n 0)%nat F.

(** The discount factor and the initial forward rate, as the
    specification writes them. *)
Definition discount_factor (zero_curve : array) (i : Z) : R :=
  (1 / (1 + item zero_curve i) ^ Z.to_nat (i + 1))%R.

Definition initial_forward_rate (time_step : R) (zero_curve : array) (k : Z) : R :=
  (1 / time_step
   * (discount_factor zero_curve k / discount_factor zero_curve (k + 1) - 1))%R.

(** The array [Delta] of the entry point. *)
Definition Delta_of (steps : Z) (time_step : R) : array :=
  repeat time_step (Z.to_nat (steps - 1)).

(** The accumulator [forward_rate_mc] before the first path. *)
Definition zeros_of (steps : Z) : matrix :=
  repeat (repeat 0%R (Z.to_nat (steps - 1))) (Z.to_nat (steps - 1)).

(** * Properties *)

(** ** Sequences and indexing *)

Lemma py_index_in_range (n : nat) (i : Z) :
  0 <= i < Z.of_nat n -> py_index n i = Some (Z.to_nat i).
Proof.
  intros [H0 H1]. unfold py_index.
  apply Z.leb_le in H0. apply Z.ltb_lt in H1.
  now rewrite H0, H1.
Qed.

Lemma getitem_nth {A} (a : list A) (i : Z) (d : A) :
  0 <= i < len a -> getitem a i = Ok (nth (Z.to_nat i) a d).
Proof.
  intros H. unfold getitem, len in *.
  rewrite py_index_in_range by exact H.
  destruct (nth_error a (Z.to_nat i)) as [x|] eqn:E.
  - now rewrite (nth_error_nth _ _ d E).
  - apply nth_error_None in E. lia.
Qed.

Lemma getitem_item (a : array) (i : Z) :
  0 <= i < len a -> getitem a i = Ok (item a i).
Proof.
  intros H. unfold item. now rewrite (getitem_nth a i 0%R H).
Qed.

Lemma item_nth (a : array) (i : Z) :
  0 <= i < len a -> item a i = nth (Z.to_nat i) a 0%R.
Proof.
  intros H. unfold item. now rewrite (getitem_nth a i 0%R H).
Qed.

Lemma setitem_in_range {A} (a : list A) (i : Z) (x : A) :
  0 <= i < len a -> setitem a i x = Ok (list_set a (Z.to_nat i) x).
Proof.
  intros H. unfold setitem, len in *. now rewrite py_index_in_range.
Qed.

Lemma length_list_set {A} (a : list A) (n : nat) (x : A) :
  length (list_set a n x) = length a.
Proof.
  revert n. induction a as [|h t IH]; intros [|n]; simpl; auto.
Qed.

Lemma len_list_set {A} (a : list A) (n : nat) (x : A) :
  len (list_set a n x) = len a.
Proof. unfold len. now rewrite length_list_set. Qed.

Lemma nth_list_set_eq {A} (a : list A) (n : nat) (x d : A) :
  (n < length a)%nat -> nth n (list_set a n x) d = x.
Proof.
  revert n. induction a as [|h t IH]; intros [|n] H; simpl in *; try lia; auto.
  apply IH. lia.
Qed.

Lemma nth_list_set_neq {A} (a : list A) (n m : nat) (x d : A) :
  n <> m -> nth m (list_set a n x) d = nth m a d.
Proof.
  revert n m. induction a as [|h t IH]; intros [|n] [|m] H; simpl; auto;
    congruence.
Qed.

Lemma Forall_list_set {A} (P : A -> Prop) (a : list A) (n : nat) (x : A) :
  Forall P a -> P x -> Forall P (list_set a n x).
Proof.
  intros Ha Hx. revert n.
  induction Ha as [|h t Hh Ht IH]; intros [|n]; simpl; auto.
Qed.

Lemma Forall_nth_len {A} (P : A -> Prop) (a : list A) (n : nat) (d : A) :
  Forall P a -> (n < length a)%nat -> P (nth n a d).
Proof.
  intros Ha Hn. rewrite Forall_forall in Ha. apply Ha. now apply nth_In.
Qed.

Lemma len_repeat {A} (x : A) (n : Z) :
  0 <= n -> len (repeat x (Z.to_nat n)) = n.
Proof. intros H. unfold len. rewrite repeat_length. lia. Qed.

Lemma item_repeat (x : R) (n i : Z) :
  0 <= i < n -> item (repeat x (Z.to_nat n)) i = x.
Proof.
  intros H. rewrite item_nth by (rewrite len_repeat; lia).
  apply nth_repeat_lt. lia.
Qed.

(** ** Matrices *)

Lemma shape_row (m : matrix) (r c i : Z) :
  shape m r c -> 0 <= i < r -> len (nth (Z.to_nat i) m []) = c.
Proof.
  intros [Hr Hc] Hi.
  apply (Forall_nth_len (fun row => len row = c)); auto.
  unfold len in Hr. lia.
Qed.

Lemma getitem2_nth (m : matrix) (r c i j : Z) :
  shape m r c -> 0 <= i < r -> 0 <= j < c ->
  getitem2 m i j = Ok (nth (Z.to_nat j) (nth (Z.to_nat i) m []) 0%R).
Proof.
  intros Hm Hi Hj. unfold getitem2.
  rewrite (getitem_nth m i []) by (destruct Hm; lia).
  apply getitem_nth. rewrite (shape_row m r c); auto.
Qed.

Lemma getitem2_cell (m : matrix) (r c i j : Z) :
  shape m r c -> 0 <= i < r -> 0 <= j < c ->
  getitem2 m i j = Ok (cell m i j).
Proof.
  intros Hm Hi Hj. unfold cell.
  now rewrite (getitem2_nth m r c i j Hm Hi Hj).
Qed.

Lemma cell_nth (m : matrix) (r c i j : Z) :
  shape m r c -> 0 <= i < r -> 0 <= j < c ->
  cell m i j = nth (Z.to_nat j) (nth (Z.to_nat i) m []) 0%R.
Proof.
  intros Hm Hi Hj. unfold cell.
  now rewrite (getitem2_nth m r c i j Hm Hi Hj).
Qed.

Lemma setitem2_mset (m : matrix) (r c i j : Z) (x : R) :
  shape m r c -> 0 <= i < r -> 0 <= j < c ->
  setitem2 m i j x = Ok (mset m i j x).
Proof.
  intros Hm Hi Hj. unfold setitem2, mset.
  rewrite (getitem_nth m i []) by (destruct Hm; lia).
  rewrite setitem_in_range by (rewrite (shape_row m r c); auto).
  apply setitem_in_range. destruct Hm; lia.
Qed.

Lemma shape_mset (m : matrix) (r c i j : Z) (x : R) :
  shape m r c -> 0 <= i < r -> shape (mset m i j x) r c.
Proof.
  intros Hm Hi. pose proof (shape_row m r c i Hm Hi) as Hrow.
  destruct Hm as [Hr Hc]. unfold mset. split.
  - now rewrite len_list_set.
  - apply Forall_list_set; auto. now rewrite len_list_set.
Qed.

Lemma cell_mset_eq (m : matrix) (r c i j : Z) (x : R) :
  shape m r c -> 0 <= i < r -> 0 <= j < c ->
  cell (mset m i j x) i j = x.
Proof.
  intros Hm Hi Hj.
  rewrite (cell_nth _ r c) by (auto using shape_mset).
  pose proof (shape_row m r c i Hm Hi) as Hrow.
  destruct Hm as [Hr Hc]. unfold mset, len in *.
  rewrite nth_list_set_eq by lia.
  apply nth_list_set_eq. lia.
Qed.

Lemma cell_mset_neq (m : matrix) (r c i j i' j' : Z) (x : R) :
  shape m r c -> 0 <= i < r -> 0 <= j < c ->
  0 <= i' < r -> 0 <= j' < c -> (i', j') <> (i, j) ->
  cell (mset m i j x) i' j' = cell m i' j'.
Proof.
  intros Hm Hi Hj Hi' Hj' Hne.
  rewrite (cell_nth _ r c) by (auto using shape_mset).
  rewrite (cell_nth m r c) by auto.
  destruct Hm as [Hr Hc]. unfold mset, len in *.
  destruct (Z.eq_dec i' i) as [->|Hii].
  - rewrite nth_list_set_eq by lia.
    apply nth_list_set_neq. intro E. apply Hne. f_equal. lia.
  - rewrite nth_list_set_neq by lia. reflexivity.
Qed.

Lemma shape_zeros (r c : Z) :
  0 <= r -> 0 <= c ->
  shape (repeat (repeat 0%R (Z.to_nat c)) (Z.to_nat r)) r c.
Proof.
  intros Hr Hc. split.
  - now apply len_repeat.
  - apply Forall_forall. intros row Hin.
    apply repeat_spec in Hin. subst row. now apply len_repeat.
Qed.

Lemma cell_zeros (r c i j : Z) :
  0 <= i < r -> 0 <= j < c ->
  cell (repeat (repeat 0%R (Z.to_nat c)) (Z.to_nat r)) i j = 0%R.
Proof.
  intros Hi Hj.
  rewrite (cell_nth _ r c) by (auto; apply shape_zeros; lia).
  rewrite nth_repeat_lt by lia. apply nth_repeat_lt. lia.
Qed.

Lemma np_zeros2_ok (r c : Z) :
  0 <= r -> 0 <= c ->
  np_zeros2 r c = Ok (repeat (repeat 0%R (Z.to_nat c)) (Z.to_nat r)).
Proof.
  intros Hr Hc. unfold np_zeros2.
  apply Z.ltb_ge in Hr. apply Z.ltb_ge in Hc. now rewrite Hr, Hc.
Qed.

(** ** Running monadic code *)

Lemma bind_ok {A B} (c : M A) (k : A -> M B) (w w' : world) (a : A) :
  c w = (Ok a, w') -> bind c k w = k a w'.
Proof. intros H. unfold bind. now rewrite H. Qed.

Lemma bind_lift {A B} (o : outcome A) (k : A -> M B) (w : world) (a : A) :
  o = Ok a -> bind (lift o) k w = k a w.
Proof. intros ->. reflexivity. Qed.

Lemma range_nil (lo hi : Z) : hi <= lo -> range lo hi = [].
Proof.
  intros H. unfold range. replace (Z.to_nat (hi - lo)) with 0%nat by lia.
  reflexivity.
Qed.

Lemma range_cons (lo hi : Z) :
  lo < hi -> range lo hi = lo :: range (lo + 1) hi.
Proof.
  intros H. unfold range.
  replace (Z.to_nat (hi - lo)) with (S (Z.to_nat (hi - (lo + 1)))) by lia.
  cbn [seq map]. f_equal.
  - lia.
  - rewrite <- seq_shift, map_map. apply map_ext. intros n. lia.
Qed.

Lemma in_range (lo hi i : Z) : In i (range lo hi) <-> lo <= i < hi.
Proof.
  unfold range. rewrite in_map_iff. split.
  - intros (n & <- & Hn). apply in_seq in Hn. lia.
  - intros H. exists (Z.to_nat (i - lo)). split; [lia|].
    apply in_seq. lia.
Qed.

Lemma for_range_empty {S} (lo hi : Z) (body : Z -> S -> M S) (s : S) (w : world) :
  hi <= lo -> for_range lo hi body s w = (Ok s, w).
Proof. intros H. unfold for_range. now rewrite range_nil. Qed.

Lemma for_range_step {S} (lo hi : Z) (body : Z -> S -> M S) (s : S) :
  lo < hi ->
  for_range lo hi body s = (s' <- body lo s ;; for_range (lo + 1) hi body s').
Proof. intros H. unfold for_range. now rewrite range_cons. Qed.

(** The invariant rule of a [for] loop over [range(lo, hi)]: an invariant
    that every iteration re-establishes, returning normally, holds when
    the loop ends, and the loop returns normally. *)
Lemma for_range_inv {S} (I : Z -> S -> world -> Prop)
  (lo hi : Z) (body : Z -> S -> M S) (s : S) (w : world) :
  lo <= hi ->
  I lo s w ->
  (forall i s w, lo <= i < hi -> I i s w ->
     exists s' w', body i s w = (Ok s', w') /\ I (i + 1) s' w') ->
  exists s' w', for_range lo hi body s w = (Ok s', w') /\ I hi s' w'.
Proof.
  intros Hle. remember (Z.to_nat (hi - lo)) as n eqn:Hn.
  revert lo s w Hle Hn.
  induction n as [|n IH]; intros lo s w Hle Hn H0 Hstep.
  - assert (lo = hi) by lia. subst lo.
    exists s, w. split; [|exact H0]. apply for_range_empty. lia.
  - destruct (Hstep lo s w) as (s1 & w1 & Hb & H1); [lia|exact H0|].
    destruct (IH (lo + 1) s1 w1) as (s2 & w2 & Hr & H2);
      [lia|lia|exact H1| |].
    + intros i s' w' Hi. apply Hstep. lia.
    + exists s2, w2. split; [|exact H2].
      rewrite for_range_step by lia. now rewrite (bind_ok _ _ _ _ _ Hb).
Qed.

(** ** The number of steps *)

Lemma number_of_steps_nonzero (time_step maturity : R) :
  time_step <> 0%R ->
  number_of_steps time_step maturity = Ok (py_int (maturity / time_step) + 1).
Proof.
  intros H. unfold number_of_steps, py_truediv.
  destruct (Req_dec_T time_step 0) as [E|_]; [contradiction|reflexivity].
Qed.

Lemma number_of_steps_zero (maturity : R) :
  number_of_steps 0 maturity = Raise ZeroDivisionError.
Proof.
  unfold number_of_steps, py_truediv.
  destruct (Req_dec_T 0 0) as [_|E]; [reflexivity|now elim E].
Qed.

Lemma py_int_nonneg (x : R) : (0 <= x)%R -> py_int x = Int_part x.
Proof.
  intros H. unfold py_int. destruct (Rle_dec 0 x); [reflexivity|contradiction].
Qed.

Lemma py_int_IZR (z : Z) : py_int (IZR z) = z.
Proof.
  unfold py_int. destruct (Rle_dec 0 (IZR z)) as [H|H].
  - symmetry. apply Int_part_spec. lra.
  - rewrite <- opp_IZR.
    rewrite <- (Int_part_spec (IZR (- z)) (- z)) by lra. lia.
Qed.

(** With a unit time step an integral maturity [m] gives [m + 1] steps. *)
Lemma number_of_steps_IZR (m : Z) : number_of_steps 1 (IZR m) = Ok (m + 1).
Proof.
  rewrite number_of_steps_nonzero by lra.
  replace (IZR m / 1)%R with (IZR m) by field. now rewrite py_int_IZR.
Qed.

(** ** The time grid *)

Lemma item_list_set_eq (a : array) (i : Z) (x : R) :
  0 <= i < len a -> item (list_set a (Z.to_nat i) x) i = x.
Proof.
  intros H. rewrite item_nth by (now rewrite len_list_set).
  apply nth_list_set_eq. unfold len in H. lia.
Qed.

Lemma item_list_set_neq (a : array) (i i' : Z) (x : R) :
  0 <= i < len a -> 0 <= i' < len a -> i' <> i ->
  item (list_set a (Z.to_nat i) x) i' = item a i'.
Proof.
  intros H H' Hne. rewrite !item_nth by (now rewrite ?len_list_set).
  apply nth_list_set_neq. lia.
Qed.

Lemma np_zeros_ok (n : Z) :
  0 <= n -> np_zeros n = Ok (repeat 0%R (Z.to_nat n)).
Proof. intros H. unfold np_zeros. apply Z.ltb_ge in H. now rewrite H. Qed.

Lemma np_full_ok (n : Z) (v : R) :
  0 <= n -> np_full n v = Ok (repeat v (Z.to_nat n)).
Proof. intros H. unfold np_full. apply Z.ltb_ge in H. now rewrite H. Qed.

Lemma time_grid_ok (steps : Z) (time_step : R) (w : world) :
  0 <= steps ->
  exists t, time_grid steps time_step w = (Ok t, w) /\ len t = steps.
Proof.
  intros Hs. unfold time_grid.
  rewrite (bind_lift _ _ _ _ (np_zeros_ok steps Hs)).
  destruct (for_range_inv
              (fun (_ : Z) (s : array * R) w' => len (fst s) = steps /\ w' = w)
              0 steps
              (fun i '(t, time) =>
                 t <- lift (setitem t i time) ;; ret (t, (time + time_step)%R))
              (repeat 0%R (Z.to_nat steps), 0%R) w)
    as ([t time] & w' & Hrun & Hlen & ->).
  - exact Hs.
  - split; [now apply len_repeat|reflexivity].
  - intros i [t time] w' Hi [Hlen ->]. cbn [fst] in Hlen.
    rewrite (bind_lift _ _ _ _ (setitem_in_range t i time ltac:(lia))).
    eexists; eexists; split; [reflexivity|].
    split; [cbn [fst]; now rewrite len_list_set|reflexivity].
  - rewrite (bind_ok _ _ _ _ _ Hrun). now exists t.
Qed.

(** ** Discount factors and initial forward rates *)

Lemma bond_prices_ok (steps : Z) (zero_curve : array) (w : world) :
  0 <= steps <= len zero_curve ->
  exists B_0,
    bond_prices steps zero_curve w = (Ok B_0, w) /\
    len B_0 = steps /\
    forall i, 0 <= i < steps ->
      item B_0 i = (1 / np_power (1 + item zero_curve i) (i + 1))%R.
Proof.
  intros Hs. unfold bond_prices.
  rewrite (bind_lift _ _ _ _ (np_zeros_ok steps ltac:(lia))).
  destruct (for_range_inv
              (fun n (B : array) w' =>
                 len B = steps /\ w' = w /\
                 forall i, 0 <= i < n ->
                   item B i = (1 / np_power (1 + item zero_curve i) (i + 1))%R)
              0 steps
              (fun i B_0 =>
                 z <- lift (getitem zero_curve i) ;;
                 lift (setitem B_0 i (1 / np_power (1 + z) (i + 1))%R))
              (repeat 0%R (Z.to_nat steps)) w)
    as (B & w' & Hrun & Hlen & -> & HB).
  - lia.
  - split; [apply len_repeat; lia|]. split; [reflexivity|]. intros i Hi. lia.
  - intros n B w' Hn (Hlen & -> & HB).
    rewrite (bind_lift _ _ _ _ (getitem_item zero_curve n ltac:(lia))).
    unfold lift. rewrite setitem_in_range by lia.
    eexists; eexists; split; [reflexivity|].
    split; [now rewrite len_list_set|]. split; [reflexivity|].
    intros i Hi. destruct (Z.eq_dec i n) as [->|Hne].
    + now rewrite item_list_set_eq by lia.
    + rewrite item_list_set_neq by lia. apply HB. lia.
  - exists B. auto.
Qed.

Lemma initial_forward_rates_ok (steps : Z) (Delta B_0 : array) (w : world) :
  1 <= steps -> len Delta = steps - 1 -> len B_0 = steps ->
  exists F0,
    initial_forward_rates steps Delta B_0 w = (Ok F0, w) /\
    shape F0 (steps - 1) (steps - 1) /\
    (forall k, 0 <= k < steps - 1 ->
       cell F0 k 0 =
       ((1 / item Delta k) * (item B_0 k / item B_0 (k + 1) - 1))%R) /\
    (forall k j, 0 <= k < steps - 1 -> 1 <= j < steps - 1 ->
       cell F0 k j = 0%R).
Proof.
  intros Hs HD HB. unfold initial_forward_rates.
  rewrite (bind_lift _ _ _ _ (np_zeros2_ok (steps - 1) (steps - 1)
                                ltac:(lia) ltac:(lia))).
  destruct (for_range_inv
              (fun n (F : matrix) w' =>
                 shape F (steps - 1) (steps - 1) /\ w' = w /\
                 (forall k, 0 <= k < n ->
                    cell F k 0 =
                    ((1 / item Delta k) * (item B_0 k / item B_0 (k + 1) - 1))%R) /\
                 (forall k j, 0 <= k < steps - 1 -> 1 <= j < steps - 1 ->
                    cell F k j = 0%R))
              0 (steps - 1)
              (fun i forward_rate_from_zero =>
                 d <- lift (getitem Delta i) ;;
                 b <- lift (getitem B_0 i) ;;
                 b' <- lift (getitem B_0 (i + 1)) ;;
                 lift (setitem2 forward_rate_from_zero i 0
                         ((1 / d) * (b / b' - 1))%R))
              (repeat (repeat 0%R (Z.to_nat (steps - 1))) (Z.to_nat (steps - 1))) w)
    as (F & w' & Hrun & Hsh & -> & Hcol & Hzero).
  - lia.
  - split; [apply shape_zeros; lia|]. split; [reflexivity|]. split.
    + intros k Hk. lia.
    + intros k j Hk Hj. apply cell_zeros; lia.
  - intros n F w' Hn (Hsh & -> & Hcol & Hzero).
    rewrite (bind_lift _ _ _ _ (getitem_item Delta n ltac:(lia))).
    rewrite (bind_lift _ _ _ _ (getitem_item B_0 n ltac:(lia))).
    rewrite (bind_lift _ _ _ _ (getitem_item B_0 (n + 1) ltac:(lia))).
    unfold lift.
    rewrite (setitem2_mset F (steps - 1) (steps - 1)) by (auto; lia).
    eexists; eexists; split; [reflexivity|].
    split; [apply shape_mset; auto; lia|]. split; [reflexivity|]. split.
    + intros k Hk. destruct (Z.eq_dec k n) as [->|Hne].
      * rewrite (cell_mset_eq F (steps - 1) (steps - 1)) by (auto; lia).
        reflexivity.
      * rewrite (cell_mset_neq F (steps - 1) (steps - 1)) by
          (auto; try lia; congruence).
        apply Hcol. lia.
    + intros k j Hk Hj.
      rewrite (cell_mset_neq F (steps - 1) (steps - 1)) by
        (auto; try lia; intro E; inversion E; lia).
      now apply Hzero.
  - exists F. auto.
Qed.

(** ** Finite sums *)

Lemma range_snoc (lo hi : Z) :
  lo <= hi -> range lo (hi + 1) = range lo hi ++ [hi].
Proof.
  intros H. unfold range.
  replace (Z.to_nat (hi + 1 - lo)) with (S (Z.to_nat (hi - lo))) by lia.
  rewrite seq_S, map_app. cbn [map]. do 2 f_equal. lia.
Qed.

Lemma sigma_empty (lo hi : Z) (f : Z -> R) : hi < lo -> sigma lo hi f = 0%R.
Proof. intros H. unfold sigma. rewrite range_nil by lia. reflexivity. Qed.

Lemma sigma_snoc (lo hi : Z) (f : Z -> R) :
  lo <= hi -> sigma lo hi f = (sigma lo (hi - 1) f + f hi)%R.
Proof.
  intros H. unfold sigma. replace (hi - 1 + 1) with hi by lia.
  rewrite range_snoc by lia. now rewrite fold_left_app.
Qed.

Lemma fold_left_sum_ext (l : list Z) (f g : Z -> R) (a : R) :
  (forall i, In i l -> f i = g i) ->
  fold_left (fun acc i => (acc + f i)%R) l a =
  fold_left (fun acc i => (acc + g i)%R) l a.
Proof.
  revert a. induction l as [|x l IH]; intros a H; cbn [fold_left].
  - reflexivity.
  - rewrite (H x) by now left. apply IH. intros i Hi. apply H. now right.
Qed.

Lemma sigma_ext (lo hi : Z) (f g : Z -> R) :
  (forall i, lo <= i <= hi -> f i = g i) -> sigma lo hi f = sigma lo hi g.
Proof.
  intros H. unfold sigma. apply fold_left_sum_ext.
  intros i Hi. apply in_range in Hi. apply H. lia.
Qed.



(** ** The update and its draw *)

Lemma np_power_2 (x : R) : np_power x 2 = (x ^ 2)%R.
Proof. reflexivity. Qed.

Lemma drift_ext (Delta vols : array) (prev prev' : Z -> R) (k j : Z) :
  (forall i, j + 1 <= i <= k -> prev i = prev' i) ->
  drift Delta vols prev k j = drift Delta vols prev' k j.
Proof.
  intros H. unfold drift. apply sigma_ext. intros i Hi.
  unfold drift_term. now rewrite (H i Hi).
Qed.

Lemma lognormal_step_ext (Delta vols : array) (prev prev' : Z -> R)
  (k j : Z) (e : R) :
  j < k ->
  (forall i, j + 1 <= i <= k -> prev i = prev' i) ->
  lognormal_step Delta vols prev k j e = lognormal_step Delta vols prev' k j e.
Proof.
  intros Hjk H. unfold lognormal_step.
  rewrite (drift_ext Delta vols prev prev' k j H).
  now rewrite (H k) by lia.
Qed.

Lemma triangle_succ (k : Z) : (k + 1) * (k + 1 - 1) / 2 = k * (k - 1) / 2 + k.
Proof.
  replace ((k + 1) * (k + 1 - 1)) with (k * (k - 1) + k * 2) by lia.
  now rewrite Z.div_add by lia.
Qed.

Lemma triangle_nonneg (k : Z) : 0 <= k -> 0 <= k * (k - 1) / 2.
Proof. intros H. apply Z.div_pos; nia. Qed.

Lemma draw_index_succ (k j : Z) :
  0 <= k -> 0 <= j -> draw_index k (j + 1) = S (draw_index k j).
Proof.
  intros Hk Hj. unfold draw_index. pose proof (triangle_nonneg k Hk). lia.
Qed.

Lemma draw_index_row (k : Z) :
  0 <= k -> draw_index (k + 1) 0 = draw_index k k.
Proof.
  intros Hk. unfold draw_index. rewrite triangle_succ. f_equal. lia.
Qed.

(** Distinct updates of a path consume distinct draws. *)
Lemma draw_index_inj (k j k' j' : Z) :
  0 <= j < k -> 0 <= j' < k' ->
  draw_index k j = draw_index k' j' -> k = k' /\ j = j'.
Proof.
  intros H H' E. unfold draw_index in E.
  pose proof (triangle_nonneg k ltac:(lia)).
  pose proof (triangle_nonneg k' ltac:(lia)).
  assert (E' : k * (k - 1) / 2 + j = k' * (k' - 1) / 2 + j') by lia.
  clear E.
  assert (T : forall a b, 0 <= a -> a < b -> a * (a - 1) / 2 + a <= b * (b - 1) / 2).
  { intros a b Ha Hab. rewrite <- triangle_succ.
    apply Z.div_le_mono; [lia|]. nia. }
  destruct (Z.lt_trichotomy k k') as [Hlt|[->|Hgt]].
  - pose proof (T k k' ltac:(lia) Hlt). lia.
  - split; [reflexivity|lia].
  - pose proof (T k' k ltac:(lia) Hgt). lia.
Qed.

(** ** The access log *)

Lemma extends_refl (n : Z) (w : world) : extends n w w.
Proof. exists []. split; [now rewrite app_nil_r|constructor]. Qed.

Lemma extends_trans (n : Z) (w1 w2 w3 : world) :
  extends n w1 w2 -> extends n w2 w3 -> extends n w1 w3.
Proof.
  intros (l1 & E1 & H1) (l2 & E2 & H2). exists (l1 ++ l2). split.
  - now rewrite E2, E1, app_assoc.
  - now apply Forall_app.
Qed.

Lemma extends_app (n : Z) (w w1 w' : world) (l : list access) :
  extends n w w1 -> trace w' = trace w1 ++ l -> Forall (ok_access n) l ->
  extends n w w'.
Proof.
  intros H E Hl. apply (extends_trans n w w1 w' H). now exists l.
Qed.

Lemma F_get_ok (n k j row col : Z) (F : matrix) (w : world) :
  shape F n n -> 0 <= row < n -> 0 <= col < n ->
  F_get k j F row col w =
  (Ok (cell F row col), mkWorld (rng_pos w) (trace w ++ [Rd k j row col])).
Proof.
  intros Hsh Hr Hc. unfold F_get, bind, log, lift.
  now rewrite (getitem2_cell F n n row col Hsh Hr Hc).
Qed.

Lemma F_set_ok (n row col : Z) (F : matrix) (x : R) (w : world) :
  shape F n n -> 0 <= row < n -> 0 <= col < n ->
  F_set F row col x w =
  (Ok (mset F row col x), mkWorld (rng_pos w) (trace w ++ [Wr row col])).
Proof.
  intros Hsh Hr Hc. unfold F_set, bind, log, lift.
  now rewrite (setitem2_mset F n n row col x Hsh Hr Hc).
Qed.

(** ** One path *)

Section Path.

Variable normals : nat -> R.
Variables Delta vols : array.
Variable n : Z.

Hypothesis Delta_len : len Delta = n.
Hypothesis vols_len : n <= len vols.

(** The drift loop returns the sum the specification writes, reads the
    matrix where allowed, and draws nothing. *)
Lemma sum1_ok (F : matrix) (k j : Z) (w : world) :
  shape F n n -> 0 <= j < k -> k < n ->
  exists w',
    sum1 Delta vols F k j w =
      (Ok (drift Delta vols (fun i => cell F i j) k j), w') /\
    rng_pos w' = rng_pos w /\ extends n w w'.
Proof.
  intros Hsh Hj Hk. unfold sum1.
  destruct (for_range_inv
              (fun i (s : R) w' =>
                 s = sigma (j + 1) (i - 1)
                       (drift_term Delta vols (fun i => cell F i j) k j) /\
                 rng_pos w' = rng_pos w /\ extends n w w')
              (j + 1) (k + 1)
              (fun i sum1 =>
                 d <- lift (getitem Delta i) ;;
                 f <- F_get k j F i j ;;
                 v <- lift (getitem vols (i - j - 1)) ;;
                 vk <- lift (getitem vols (k - j - 1)) ;;
                 d' <- lift (getitem Delta i) ;;
                 f' <- F_get k j F i j ;;
                 ret (sum1 + (d * f * v * vk) / (1 + d' * f'))%R)
              0%R w)
    as (s & w' & Hrun & -> & Hpos & Hext).
  - lia.
  - split; [now rewrite sigma_empty by lia|].
    split; [reflexivity|apply extends_refl].
  - intros i s w1 Hi (-> & Hpos & Hext).
    rewrite (bind_lift _ _ _ _ (getitem_item Delta i ltac:(lia))).
    rewrite (bind_ok _ _ _ _ _ (F_get_ok n k j i j F _ Hsh ltac:(lia) ltac:(lia))).
    rewrite (bind_lift _ _ _ _ (getitem_item vols (i - j - 1) ltac:(lia))).
    rewrite (bind_lift _ _ _ _ (getitem_item vols (k - j - 1) ltac:(lia))).
    rewrite (bind_lift _ _ _ _ (getitem_item Delta i ltac:(lia))).
    rewrite (bind_ok _ _ _ _ _ (F_get_ok n k j i j F _ Hsh ltac:(lia) ltac:(lia))).
    eexists; eexists; split; [reflexivity|]. split; [|split].
    + replace (i + 1 - 1) with i by lia.
      now rewrite (sigma_snoc (j + 1) i) by lia.
    + exact Hpos.
    + apply (extends_app n w w1 _ [Rd k j i j; Rd k j i j] Hext).
      * cbn [trace]. now rewrite <- app_assoc.
      * repeat constructor; cbn; lia.
  - exists w'. replace (k + 1 - 1) with k in Hrun by lia. auto.
Qed.

(** One update writes the log-normal step of the specification, with the
    next draw of the stream. *)
Lemma evolve_ok (F : matrix) (k j : Z) (w : world) :
  shape F n n -> 0 <= j < k -> k < n ->
  exists w',
    evolve normals Delta vols F k j w =
      (Ok (mset F k (j + 1)
             (lognormal_step Delta vols (fun i => cell F i j) k j
                (normals (rng_pos w)))), w') /\
    rng_pos w' = S (rng_pos w) /\ extends n w w'.
Proof.
  intros Hsh Hj Hk. unfold evolve.
  destruct (sum1_ok F k j w Hsh Hj Hk) as (w1 & Hsum & Hpos & Hext).
  rewrite (bind_ok _ _ _ _ _ Hsum).
  unfold standard_normal at 1. unfold bind at 1.
  rewrite (bind_ok _ _ _ _ _ (F_get_ok n k j k j F _ Hsh ltac:(lia) ltac:(lia))).
  rewrite (bind_lift _ _ _ _ (getitem_item vols (k - j - 1) ltac:(lia))).
  rewrite (bind_lift _ _ _ _ (getitem_item Delta j ltac:(lia))).
  rewrite (bind_lift _ _ _ _ (getitem_item vols (k - j - 1) ltac:(lia))).
  rewrite (bind_lift _ _ _ _ (getitem_item Delta j ltac:(lia))).
  rewrite (F_set_ok n k (j + 1) F _ _ Hsh ltac:(lia) ltac:(lia)).
  cbn [rng_pos trace]. rewrite Hpos, np_power_2.
  eexists; split; [reflexivity|]. split; [reflexivity|].
  apply (extends_app n w w1 _ [Rd k j k j; Wr k (j + 1)] Hext).
  - cbn [trace]. now rewrite <- app_assoc.
  - repeat constructor; cbn; lia.
Qed.

End Path.

(** ** The matrix of one path *)

Section PathMatrix.

Variable normals : nat -> R.
Variables Delta vols : array.
Variable n : Z.
Variable F0 : matrix.
Variable p0 : nat.

Hypothesis Delta_len : len Delta = n.
Hypothesis vols_len : n <= len vols.
Hypothesis F0_shape : shape F0 n n.

Lemma path_column_0 (k : Z) :
  path_column normals Delta vols F0 p0 0 k = cell F0 k 0.
Proof. reflexivity. Qed.

Lemma path_column_succ (j k : Z) :
  0 <= j ->
  path_column normals Delta vols F0 p0 (j + 1) k =
  lognormal_step Delta vols (path_column normals Delta vols F0 p0 j) k j
    (normals (p0 + draw_index k j)%nat).
Proof.
  intros Hj. unfold path_column.
  replace (Z.to_nat (j + 1)) with (S (Z.to_nat j)) by lia.
  cbn [column]. now rewrite Z2Nat.id by lia.
Qed.

Lemma path_state_update (w0 : world) (F : matrix) (k j : Z) (w : world) :
  1 <= k < n -> 0 <= j < k ->
  path_state normals Delta vols n F0 p0 w0 k j F w ->
  exists F' w',
    evolve normals Delta vols F k j w = (Ok F', w') /\
    path_state normals Delta vols n F0 p0 w0 k (j + 1) F' w'.
Proof.
  intros Hk Hj (Hsh & Hcell & Hpos & Hext).
  destruct (evolve_ok normals Delta vols n Delta_len vols_len F k j w Hsh
              ltac:(lia) ltac:(lia)) as (w' & Hrun & Hpos' & Hext').
  eexists; exists w'; split; [exact Hrun|].
  split; [apply shape_mset; auto; lia|]. split; [|split].
  - intros row col Hrow Hcol.
    destruct (Z.eq_dec row k) as [->|Hr];
      [destruct (Z.eq_dec col (j + 1)) as [->|Hc]|].
    + rewrite (cell_mset_eq F n n) by (auto; lia).
      unfold written.
      replace (k =? k) with true by (symmetry; apply Z.eqb_refl).
      replace (j + 1 <=? j + 1) with true by (symmetry; apply Z.leb_refl).
      rewrite orb_true_r. rewrite path_column_succ by lia.
      rewrite Hpos. apply lognormal_step_ext; [lia|].
      intros i Hi. rewrite Hcell by lia. unfold written.
      destruct (Z.eq_dec i k) as [->|Hik].
      * replace (k =? k) with true by (symmetry; apply Z.eqb_refl).
        replace (j <=? j) with true by (symmetry; apply Z.leb_refl).
        now rewrite orb_true_r.
      * replace (i <? k) with true by (symmetry; apply Z.ltb_lt; lia).
        replace (j <=? i) with true by (symmetry; apply Z.leb_le; lia).
        now rewrite orb_true_r.
    + rewrite (cell_mset_neq F n n) by (auto; try lia; congruence).
      rewrite Hcell by lia. unfold written.
      replace (col <=? j + 1) with (col <=? j); [reflexivity|].
      destruct (Z.leb_spec col j), (Z.leb_spec col (j + 1)); auto; lia.
    + rewrite (cell_mset_neq F n n) by (auto; try lia; congruence).
      rewrite Hcell by lia. unfold written.
      replace (row =? k) with false by (symmetry; apply Z.eqb_neq; lia).
      reflexivity.
  - rewrite Hpos', Hpos, draw_index_succ by lia. lia.
  - eapply extends_trans; eassumption.
Qed.

Lemma path_state_row (w0 : world) (F : matrix) (k : Z) (w : world) :
  1 <= k < n ->
  path_state normals Delta vols n F0 p0 w0 k 0 F w ->
  exists F' w',
    for_range 0 k (fun j F => evolve normals Delta vols F k j) F w = (Ok F', w') /\
    path_state normals Delta vols n F0 p0 w0 (k + 1) 0 F' w'.
Proof.
  intros Hk H0.
  destruct (for_range_inv
              (fun j F w => path_state normals Delta vols n F0 p0 w0 k j F w)
              0 k
              (fun j F => evolve normals Delta vols F k j) F w)
    as (F' & w' & Hrun & Hsh & Hcell & Hpos & Hext).
  - lia.
  - exact H0.
  - intros j F1 w1 Hj H1. apply path_state_update; auto; lia.
  - exists F', w'. split; [exact Hrun|].
    split; [exact Hsh|]. split; [|split].
    + intros row col Hrow Hcol. rewrite Hcell by lia. unfold written.
      replace ((row <? k + 1) && (col <=? row))
        with ((row <? k) && (col <=? row) || (row =? k) && (col <=? k)).
      * destruct (Z.eqb_spec row (k + 1)) as [->|_].
        -- replace (k + 1 =? k) with false by (symmetry; apply Z.eqb_neq; lia).
           replace (k + 1 <? k) with false by (symmetry; apply Z.ltb_ge; lia).
           cbn [andb orb]. rewrite orb_false_r.
           destruct (Z.eqb_spec col 0) as [->|Hc]; [reflexivity|].
           replace (col <=? 0) with false by (symmetry; apply Z.leb_gt; lia).
           reflexivity.
        -- cbn [andb]. now rewrite orb_false_r, orb_assoc.
      * destruct (Z.ltb_spec row k), (Z.ltb_spec row (k + 1)),
          (Z.eqb_spec row k), (Z.leb_spec col row), (Z.leb_spec col k);
          cbn [andb orb]; auto; lia.
    + rewrite Hpos. now rewrite draw_index_row by lia.
    + exact Hext.
Qed.

End PathMatrix.

Lemma simulate_path_ok (normals : nat -> R) (steps : Z) (Delta vols : array)
  (F0 : matrix) (w : world) :
  1 <= steps -> len Delta = steps - 1 -> steps - 1 <= len vols ->
  shape F0 (steps - 1) (steps - 1) ->
  exists F w',
    simulate_path normals steps Delta vols F0 w = (Ok F, w') /\
    path_matrix normals Delta vols (steps - 1) F0 (rng_pos w) F /\
    rng_pos w' = (rng_pos w + draw_index (steps - 1) 0)%nat /\
    extends (steps - 1) w w'.
Proof.
  intros Hs HD Hv HF0. unfold simulate_path.
  set (n := steps - 1) in *.
  rewrite (bind_lift _ _ _ _ (np_zeros2_ok n n ltac:(lia) ltac:(lia))).
  (* forward_rate[i][0] = forward_rate_from_zero[i][0] *)
  destruct (for_range_inv
              (fun i (F : matrix) w' =>
                 shape F n n /\
                 (forall row col, 0 <= row < n -> 0 <= col < n ->
                    cell F row col =
                    if (col =? 0) && (row <? i) then cell F0 row 0 else 0%R) /\
                 rng_pos w' = rng_pos w /\ extends n w w')
              0 n
              (fun i forward_rate =>
                 x <- lift (getitem2 F0 i 0) ;; F_set forward_rate i 0 x)
              (repeat (repeat 0%R (Z.to_nat n)) (Z.to_nat n)) w)
    as (F1 & w1 & Hrun1 & Hsh1 & Hcell1 & Hpos1 & Hext1).
  { lia. }
  { split; [apply shape_zeros; lia|]. split; [|split].
    - intros row col Hrow Hcol. rewrite cell_zeros by lia.
      replace (row <? 0) with false by (symmetry; apply Z.ltb_ge; lia).
      now rewrite andb_false_r.
    - reflexivity.
    - apply extends_refl. }
  { intros i F w' Hi (Hsh & Hcell & Hpos & Hext).
    rewrite (bind_lift _ _ _ _ (getitem2_cell F0 n n i 0 HF0 ltac:(lia) ltac:(lia))).
    rewrite (F_set_ok n i 0 F _ _ Hsh ltac:(lia) ltac:(lia)).
    eexists; eexists; split; [reflexivity|].
    split; [apply shape_mset; auto; lia|]. split; [|split].
    - intros row col Hrow Hcol.
      destruct (Z.eq_dec row i) as [->|Hr];
        [destruct (Z.eq_dec col 0) as [->|Hc]|].
      + rewrite (cell_mset_eq F n n) by (auto; lia).
        replace (i <? i + 1) with true by (symmetry; apply Z.ltb_lt; lia).
        reflexivity.
      + rewrite (cell_mset_neq F n n) by (auto; try lia; congruence).
        rewrite Hcell by lia.
        replace (col =? 0) with false by (symmetry; apply Z.eqb_neq; lia).
        reflexivity.
      + rewrite (cell_mset_neq F n n) by (auto; try lia; congruence).
        rewrite Hcell by lia.
        replace (row <? i + 1) with (row <? i); [reflexivity|].
        destruct (Z.ltb_spec row i), (Z.ltb_spec row (i + 1)); auto; lia.
    - exact Hpos.
    - apply (extends_app n w w' _ [Wr i 0] Hext); [reflexivity|].
      repeat constructor; lia. }
  rewrite (bind_ok _ _ _ _ _ Hrun1).
  (* the rows, from the initial column *)
  assert (Hstart : path_state normals Delta vols n F0 (rng_pos w) w 1 0 F1 w1).
  { split; [exact Hsh1|]. split; [|split].
    - intros row col Hrow Hcol. rewrite Hcell1 by lia. unfold written.
      replace (row <? n) with true by (symmetry; apply Z.ltb_lt; lia).
      rewrite andb_true_r.
      destruct (Z.eqb_spec col 0) as [->|Hc]; [reflexivity|].
      replace ((row <? 1) && (col <=? row)) with false.
      + replace ((row =? 1) && (col <=? 0)) with false; [reflexivity|].
        symmetry. apply andb_false_iff. right. apply Z.leb_gt. lia.
      + symmetry. apply andb_false_iff.
        destruct (Z.ltb_spec row 1); [right; apply Z.leb_gt; lia|now left].
    - rewrite Hpos1. unfold draw_index. cbn. lia.
    - exact Hext1. }
  assert (Hend : exists F w',
             for_range 1 n
               (fun k forward_rate =>
                  for_range 0 k
                    (fun j forward_rate => evolve normals Delta vols forward_rate k j)
                    forward_rate) F1 w1 = (Ok F, w') /\
             path_state normals Delta vols n F0 (rng_pos w) w (Z.max 1 n) 0 F w').
  { destruct (Z_lt_le_dec n 1) as [Hn|Hn].
    - exists F1, w1. rewrite for_range_empty by lia.
      split; [reflexivity|]. now replace (Z.max 1 n) with 1 by lia.
    - replace (Z.max 1 n) with n by lia.
      apply (for_range_inv
               (fun k F w' =>
                  path_state normals Delta vols n F0 (rng_pos w) w k 0 F w')
               1 n); [lia|exact Hstart|].
      intros k F w' Hk Hst.
      apply (path_state_row normals Delta vols n F0 (rng_pos w) HD Hv w F k w');
        auto; lia. }
  destruct Hend as (F & w' & Hrun & Hsh & Hcell & Hpos & Hext).
  exists F, w'. split; [exact Hrun|]. split; [split; [exact Hsh|]|split].
  - intros row col Hrow Hcol. rewrite Hcell by lia. unfold written.
    replace (row <? Z.max 1 n) with true by (symmetry; apply Z.ltb_lt; lia).
    replace (row =? Z.max 1 n) with false by (symmetry; apply Z.eqb_neq; lia).
    cbn [andb]. rewrite orb_false_r.
    destruct (Z.eqb_spec col 0) as [->|Hc]; [|reflexivity].
    now replace (0 <=? row) with true by (symmetry; apply Z.leb_le; lia).
  - rewrite Hpos. f_equal. unfold draw_index.
    destruct (Z_lt_le_dec n 1); [|now replace (Z.max 1 n) with n by lia].
    replace n with 0 by lia. replace (Z.max 1 0) with 1 by lia. reflexivity.
  - exact Hext.
Qed.

(** ** Accumulating and averaging *)

Lemma shape_matrix_add (a b : matrix) (n : Z) :
  shape a n n -> shape b n n -> shape (matrix_add a b) n n.
Proof.
  intros [Ha1 Ha2] [Hb1 Hb2]. unfold shape, matrix_add, len in *. split.
  - rewrite length_map, length_combine. lia.
  - rewrite Forall_forall in *. intros row Hin.
    apply in_map_iff in Hin. destruct Hin as ([ra rb] & <- & Hin).
    pose proof (Ha2 ra (in_combine_l _ _ _ _ Hin)) as Hra.
    pose proof (Hb2 rb (in_combine_r _ _ _ _ Hin)) as Hrb.
    cbn [fst snd]. rewrite length_map, length_combine. lia.
Qed.

Lemma cell_matrix_add (a b : matrix) (n i j : Z) :
  shape a n n -> shape b n n -> 0 <= i < n -> 0 <= j < n ->
  cell (matrix_add a b) i j = (cell a i j + cell b i j)%R.
Proof.
  intros Ha Hb Hi Hj.
  rewrite (cell_nth _ n n) by (auto using shape_matrix_add).
  rewrite (cell_nth a n n), (cell_nth b n n) by auto.
  pose proof (shape_row a n n i Ha Hi) as Hra.
  pose proof (shape_row b n n i Hb Hi) as Hrb.
  destruct Ha as [Ha _], Hb as [Hb _]. unfold matrix_add, len in *.
  set (g := fun xy : R * R => (fst xy + snd xy)%R).
  set (f := fun rows : list R * list R => map g (combine (fst rows) (snd rows))).
  change (@nil R) with (f ([], [])) at 1.
  rewrite map_nth, combine_nth by lia. unfold f. cbn [fst snd].
  rewrite (nth_indep _ 0%R (g (0%R, 0%R)))
    by (rewrite length_map, length_combine; lia).
  rewrite map_nth, combine_nth by lia. reflexivity.
Qed.

Lemma shape_matrix_div (a : matrix) (n N : Z) :
  shape a n n -> shape (matrix_div a N) n n.
Proof.
  intros [Ha1 Ha2]. unfold shape, matrix_div, len in *. split.
  - now rewrite length_map.
  - rewrite Forall_forall in *. intros row Hin.
    apply in_map_iff in Hin. destruct Hin as (r & <- & Hin).
    rewrite length_map. now apply Ha2.
Qed.

Lemma cell_matrix_div (a : matrix) (n N i j : Z) :
  shape a n n -> 0 <= i < n -> 0 <= j < n ->
  cell (matrix_div a N) i j = (cell a i j / IZR N)%R.
Proof.
  intros Ha Hi Hj.
  rewrite (cell_nth _ n n) by (auto using shape_matrix_div).
  rewrite (cell_nth a n n) by auto.
  pose proof (shape_row a n n i Ha Hi) as Hra.
  destruct Ha as [Ha _]. unfold matrix_div, len in *.
  set (h := fun x : R => (x / IZR N)%R).
  change (@nil R) with (map h []) at 1.
  rewrite map_nth.
  rewrite (nth_indep _ 0%R (h 0%R)) by (rewrite length_map; lia).
  now rewrite map_nth.
Qed.

Lemma accumulate_shape (Fs : list matrix) (acc : matrix) (n : Z) :
  shape acc n n -> Forall (fun F => shape F n n) Fs ->
  shape (accumulate Fs acc) n n.
Proof.
  intros Hacc HFs. revert acc Hacc.
  induction HFs as [|F Fs HF _ IH]; intros acc Hacc; cbn.
  - exact Hacc.
  - apply IH. now apply shape_matrix_add.
Qed.

Lemma accumulate_cell (Fs : list matrix) (acc : matrix) (n i j : Z) :
  shape acc n n -> Forall (fun F => shape F n n) Fs ->
  0 <= i < n -> 0 <= j < n ->
  cell (accumulate Fs acc) i j =
  fold_left Rplus (map (fun F => cell F i j) Fs) (cell acc i j).
Proof.
  intros Hacc HFs Hi Hj. revert acc Hacc.
  induction HFs as [|F Fs HF _ IH]; intros acc Hacc; cbn.
  - reflexivity.
  - unfold accumulate in IH. rewrite IH by now apply shape_matrix_add.
    now rewrite (cell_matrix_add acc F n).
Qed.

Lemma fold_left_Rplus_const (l : list R) (c a : R) :
  Forall (fun x => x = c) l ->
  fold_left Rplus l a = (a + INR (length l) * c)%R.
Proof.
  intros H. revert a. induction H as [|x l -> _ IH]; intros a.
  - cbn. lra.
  - cbn [fold_left length]. rewrite IH, S_INR. lra.
Qed.

(** ** The Monte Carlo loop *)

Lemma paths_from_shape (normals : nat -> R) (Delta vols : array) (n : Z)
  (F0 : matrix) (p0 : nat) (N : Z) (Fs : list matrix) :
  paths_from normals Delta vols n F0 p0 N Fs ->
  Forall (fun F => shape F n n) Fs.
Proof.
  intros [_ H]. apply Forall_forall. intros F Hin.
  apply In_nth_error in Hin. destruct Hin as [i Hi].
  now destruct (H i F Hi).
Qed.

Lemma monte_carlo_ok (normals : nat -> R) (steps : Z) (Delta vols : array)
  (F0 : matrix) (N : Z) (w : world) :
  1 <= steps -> len Delta = steps - 1 -> steps - 1 <= len vols ->
  shape F0 (steps - 1) (steps - 1) ->
  exists Fs w',
    monte_carlo normals steps Delta vols F0 N w =
      (Ok (accumulate Fs
             (repeat (repeat 0%R (Z.to_nat (steps - 1))) (Z.to_nat (steps - 1)))),
       w') /\
    paths_from normals Delta vols (steps - 1) F0 (rng_pos w) N Fs /\
    rng_pos w' = (rng_pos w + Z.to_nat N * draw_index (steps - 1) 0)%nat /\
    extends (steps - 1) w w'.
Proof.
  intros Hs HD Hv HF0. unfold monte_carlo.
  set (n := steps - 1) in *.
  set (zeros := repeat (repeat 0%R (Z.to_nat n)) (Z.to_nat n)).
  rewrite (bind_lift _ _ _ _ (np_zeros2_ok n n ltac:(lia) ltac:(lia))).
  fold zeros.
  destruct (Z_lt_le_dec N 0) as [HN|HN].
  { exists [], w. rewrite for_range_empty by lia.
    split; [reflexivity|]. split; [|split].
    - split; [cbn; lia|]. intros [|i] F E; discriminate E.
    - replace (Z.to_nat N) with 0%nat by lia. lia.
    - apply extends_refl. }
  destruct (for_range_inv
              (fun i (mc : matrix) w' =>
                 exists Fs,
                   mc = accumulate Fs zeros /\
                   paths_from normals Delta vols n F0 (rng_pos w) i Fs /\
                   rng_pos w' = (rng_pos w + Z.to_nat i * draw_index n 0)%nat /\
                   extends n w w')
              0 N
              (fun (_ : Z) forward_rate_mc =>
                 forward_rate <- simulate_path normals steps Delta vols F0 ;;
                 ret (matrix_add forward_rate_mc forward_rate))
              zeros w)
    as (mc & w' & Hrun & Fs & -> & HFs & Hpos & Hext).
  - exact HN.
  - exists []. split; [reflexivity|]. split; [|split].
    + split; [reflexivity|]. intros [|i] F E; discriminate E.
    + cbn. lia.
    + apply extends_refl.
  - intros i mc w1 Hi (Fs & -> & [Hlen HFs] & Hpos & Hext).
    destruct (simulate_path_ok normals steps Delta vols F0 w1 Hs HD Hv HF0)
      as (F & w2 & Hrun & HF & Hpos2 & Hext2).
    rewrite (bind_ok _ _ _ _ _ Hrun).
    eexists; exists w2; split; [reflexivity|].
    exists (Fs ++ [F]). split; [|split; [split|split]].
    + unfold accumulate. now rewrite fold_left_app.
    + rewrite length_app, Hlen. cbn. lia.
    + intros m G E.
      destruct (Nat.lt_ge_cases m (length Fs)) as [Hm|Hm].
      * rewrite nth_error_app1 in E by exact Hm. now apply HFs.
      * rewrite nth_error_app2 in E by exact Hm.
        destruct (m - length Fs)%nat as [|d] eqn:Ed.
        -- injection E as <-. fold n in HF.
           replace m with (Z.to_nat i) by lia. now rewrite <- Hpos.
        -- destruct d; discriminate E.
    + fold n in Hpos2. rewrite Hpos2, Hpos.
      replace (Z.to_nat (i + 1)) with (S (Z.to_nat i)) by lia. lia.
    + fold n in Hext2. eapply extends_trans; eassumption.
  - exists Fs, w'. auto.
Qed.

(** ** The entry point *)

Lemma np_power_pow (x : R) (i : Z) :
  0 <= i -> np_power x i = (x ^ Z.to_nat i)%R.
Proof.
  intros H. unfold np_power. rewrite pow_powerRZ. now rewrite Z2Nat.id by lia.
Qed.

(** A call whose inputs pass the length checks, with at least one grid
    point, returns the average of the matrices of [N] paths that start
    from the initial forward rates. *)
Lemma run_ok (normals : nat -> R) (time_step maturity : R)
  (zero_curve vols : array) (N steps : Z) (w : world) :
  number_of_steps time_step maturity = Ok steps ->
  1 <= steps -> steps <= len zero_curve -> steps - 1 <= len vols ->
  exists F0 Fs w',
    one_factor_LIBOR_Market_Model normals time_step maturity zero_curve vols N w =
      (Ok (matrix_div (accumulate Fs (zeros_of steps)) N), w') /\
    shape F0 (steps - 1) (steps - 1) /\
    (forall k, 0 <= k < steps - 1 ->
       cell F0 k 0 = initial_forward_rate time_step zero_curve k) /\
    paths_from normals (Delta_of steps time_step) vols (steps - 1) F0
      (rng_pos w) N Fs /\
    rng_pos w' = (rng_pos w + Z.to_nat N * draw_index (steps - 1) 0)%nat /\
    extends (steps - 1) w w'.
Proof.
  intros Hsteps Hs Hzc Hv. unfold one_factor_LIBOR_Market_Model.
  rewrite (bind_lift _ _ _ _ Hsteps).
  replace (len zero_curve <? steps) with false by (symmetry; apply Z.ltb_ge; lia).
  replace (len vols <? steps - 1) with false by (symmetry; apply Z.ltb_ge; lia).
  destruct (time_grid_ok steps time_step w ltac:(lia)) as (t & Ht & _).
  rewrite (bind_ok _ _ _ _ _ Ht).
  rewrite (bind_lift _ _ _ _ (np_full_ok (steps - 1) time_step ltac:(lia))).
  fold (Delta_of steps time_step).
  assert (HD : len (Delta_of steps time_step) = steps - 1)
    by (apply len_repeat; lia).
  destruct (bond_prices_ok steps zero_curve w ltac:(lia)) as (B & HB & HBlen & HBi).
  rewrite (bind_ok _ _ _ _ _ HB).
  destruct (initial_forward_rates_ok steps (Delta_of steps time_step) B w Hs HD HBlen)
    as (F0 & HF0 & HF0sh & HF0col & _).
  rewrite (bind_ok _ _ _ _ _ HF0).
  destruct (monte_carlo_ok normals steps (Delta_of steps time_step) vols F0 N w
              Hs HD Hv HF0sh) as (Fs & w' & Hmc & HFs & Hpos & Hext).
  rewrite (bind_ok _ _ _ _ _ Hmc).
  exists F0, Fs, w'. split; [reflexivity|]. split; [exact HF0sh|].
  split; [|split; [|split]; assumption].
  intros k Hk. rewrite (HF0col k Hk).
  unfold initial_forward_rate, discount_factor, Delta_of.
  rewrite item_repeat by lia.
  rewrite !HBi by lia. now rewrite !np_power_pow by lia.
Qed.

(** The same call, stage by stage: the discount factors and the initial
    forward rates that it builds, then the paths. *)
Lemma run_stages (normals : nat -> R) (time_step maturity : R)
  (zero_curve vols : array) (N steps : Z) (w : world) :
  number_of_steps time_step maturity = Ok steps ->
  1 <= steps -> steps <= len zero_curve -> steps - 1 <= len vols ->
  exists B_0 F0 Fs w',
    bond_prices steps zero_curve w = (Ok B_0, w) /\
    initial_forward_rates steps (Delta_of steps time_step) B_0 w = (Ok F0, w) /\
    shape F0 (steps - 1) (steps - 1) /\
    one_factor_LIBOR_Market_Model normals time_step maturity zero_curve vols N w =
      (Ok (matrix_div (accumulate Fs (zeros_of steps)) N), w') /\
    paths_from normals (Delta_of steps time_step) vols (steps - 1) F0
      (rng_pos w) N Fs.
Proof.
  intros Hsteps Hs Hzc Hv. unfold one_factor_LIBOR_Market_Model.
  rewrite (bind_lift _ _ _ _ Hsteps).
  replace (len zero_curve <? steps) with false by (symmetry; apply Z.ltb_ge; lia).
  replace (len vols <? steps - 1) with false by (symmetry; apply Z.ltb_ge; lia).
  destruct (time_grid_ok steps time_step w ltac:(lia)) as (t & Ht & _).
  rewrite (bind_ok _ _ _ _ _ Ht).
  rewrite (bind_lift _ _ _ _ (np_full_ok (steps - 1) time_step ltac:(lia))).
  fold (Delta_of steps time_step).
  assert (HD : len (Delta_of steps time_step) = steps - 1)
    by (apply len_repeat; lia).
  destruct (bond_prices_ok steps zero_curve w ltac:(lia)) as (B & HB & HBlen & _).
  rewrite (bind_ok _ _ _ _ _ HB).
  destruct (initial_forward_rates_ok steps (Delta_of steps time_step) B w Hs HD HBlen)
    as (F0 & HF0 & HF0sh & _).
  rewrite (bind_ok _ _ _ _ _ HF0).
  destruct (monte_carlo_ok normals steps (Delta_of steps time_step) vols F0 N w
              Hs HD Hv HF0sh) as (Fs & w' & Hmc & HFs & _).
  rewrite (bind_ok _ _ _ _ _ Hmc).
  exists B, F0, Fs, w'. split; [exact HB|]. split; [exact HF0|].
  split; [exact HF0sh|]. split; [reflexivity|exact HFs].
Qed.

Lemma map_constant {A} (f : A -> R) (l : list A) (x : R) :
  (forall a, In a l -> f a = x) -> map f l = repeat x (length l).
Proof.
  intros H. induction l as [|a l IH]; cbn [map length repeat].
  - reflexivity.
  - rewrite (H a) by now left. f_equal. apply IH.
    intros b Hb. apply H. now right.
Qed.

(** ** Consequences for the averaged matrix *)

Lemma draw_index_bound (n k j : Z) :
  0 <= j < k -> k < n -> (draw_index k j < draw_index n 0)%nat.
Proof.
  intros Hj Hk. unfold draw_index.
  pose proof (triangle_nonneg k ltac:(lia)).
  assert (k * (k - 1) / 2 + k <= n * (n - 1) / 2).
  { rewrite <- triangle_succ. apply Z.div_le_mono; [lia|]. nia. }
  lia.
Qed.

Lemma paths_from_cell (normals : nat -> R) (Delta vols : array) (n : Z)
  (F0 : matrix) (p0 : nat) (N : Z) (Fs : list matrix) (F : matrix) :
  paths_from normals Delta vols n F0 p0 N Fs -> In F Fs ->
  exists i, (i < Z.to_nat N)%nat /\
    path_matrix normals Delta vols n F0 (p0 + i * draw_index n 0)%nat F.
Proof.
  intros [Hlen H] Hin. apply In_nth_error in Hin. destruct Hin as [i Hi].
  exists i. split; [|now apply H].
  rewrite <- Hlen. apply nth_error_Some. congruence.
Qed.

(** A cell that has one value [x] in every path has the value
    [N x / N] in the average. *)
Lemma average_cell (normals : nat -> R) (Delta vols : array) (steps : Z)
  (F0 : matrix) (p0 : nat) (N : Z) (Fs : list matrix) (i j : Z) (x : R) :
  1 <= steps ->
  paths_from normals Delta vols (steps - 1) F0 p0 N Fs ->
  0 <= i < steps - 1 -> 0 <= j < steps - 1 ->
  (forall F, In F Fs -> cell F i j = x) ->
  cell (matrix_div (accumulate Fs (zeros_of steps)) N) i j
  = (IZR (Z.max 0 N) * x / IZR N)%R.
Proof.
  intros Hs HFs Hi Hj Hx.
  pose proof (paths_from_shape _ _ _ _ _ _ _ _ HFs) as Hsh.
  assert (Hz : shape (zeros_of steps) (steps - 1) (steps - 1))
    by (apply shape_zeros; lia).
  rewrite (cell_matrix_div _ (steps - 1)) by (auto using accumulate_shape).
  rewrite (accumulate_cell Fs _ (steps - 1)) by auto.
  rewrite (fold_left_Rplus_const _ x).
  - unfold zeros_of. rewrite cell_zeros by lia.
    rewrite length_map. destruct HFs as [-> _].
    rewrite INR_IZR_INZ, Rplus_0_l. do 3 f_equal. lia.
  - apply Forall_forall. intros y Hy. apply in_map_iff in Hy.
    destruct Hy as (F & <- & HF). now apply Hx.
Qed.

Lemma average_cell_pos (N : Z) (x : R) :
  0 < N -> (IZR (Z.max 0 N) * x / IZR N)%R = x.
Proof.
  intros HN. replace (Z.max 0 N) with N by lia.
  field. intro E. apply eq_IZR in E. lia.
Qed.

(** ** The notebook's call *)

Lemma notebook_steps : number_of_steps 0.25 (11 * 0.25) = Ok 12.
Proof.
  rewrite number_of_steps_nonzero by lra.
  replace (11 * 0.25 / 0.25)%R with (IZR 11) by lra.
  now rewrite py_int_IZR.
Qed.

(** Eleven zero rates give [steps = 12], one more than the curve has
    points: the call stops at the first length check. *)
Example notebook_call (normals : nat -> R) (w : world) :
  one_factor_LIBOR_Market_Model normals 0.25 (11 * 0.25)
    notebook_zero_curve notebook_volatilities 1000 w
  = (Raise (ValueError zero_curve_too_short), w).
Proof.
  unfold one_factor_LIBOR_Market_Model.
  rewrite (bind_lift _ _ _ _ notebook_steps). reflexivity.
Qed.

(** * The claims *)

(** C1.  In every path, for every tenor [k] in [1, steps-2] and every
    step [j] in [0, k-1], the matrix the path returns satisfies
    [F[k][j+1] = F[k][j] * exp((drift - sigma[k-j-1]^2 / 2) * Delta[j]
                               + sigma[k-j-1] * e * sqrt(Delta[j]))]
    where [drift] is the sum over [i] from [j+1] to [k] of
    [Delta[i] * F[i][j] * sigma[i-j-1] * sigma[k-j-1] / (1 + Delta[i] * F[i][j])]
    and [e] is a draw of the standard-normal stream that no other update
    of the path uses: the path takes [draw_index (steps-1) 0] draws, and
    the update of [F[k][j+1]] takes the one at offset [draw_index k j].
    The updates start from the initial forward rates, [F[k][0]] being the
    entry of [forward_rate_from_zero], and the cells right of the
    diagonal stay 0: the matrix is the one these equations determine. *)
Theorem update_rule (normals : nat -> R) (steps : Z) (Delta vols : array)
  (F0 : matrix) (w : world) :
  1 <= steps -> len Delta = steps - 1 -> steps - 1 <= len vols ->
  shape F0 (steps - 1) (steps - 1) ->
  exists F w',
    simulate_path normals steps Delta vols F0 w = (Ok F, w') /\
    rng_pos w' = (rng_pos w + draw_index (steps - 1) 0)%nat /\
    shape F (steps - 1) (steps - 1) /\
    (forall k, 0 <= k <= steps - 2 -> cell F k 0 = cell F0 k 0) /\
    (forall k j, 0 <= k -> k < j -> j <= steps - 2 -> cell F k j = 0%R) /\
    forall k j, 1 <= k <= steps - 2 -> 0 <= j <= k - 1 ->
      (draw_index k j < draw_index (steps - 1) 0)%nat /\
      (forall k' j', 1 <= k' <= steps - 2 -> 0 <= j' <= k' - 1 ->
         draw_index k' j' = draw_index k j -> k' = k /\ j' = j) /\
      cell F k (j + 1) =
      (cell F k j *
       exp ((sigma (j + 1) k
               (fun i =>
                  item Delta i * cell F i j
                  * item vols (i - j - 1) * item vols (k - j - 1)
                  / (1 + item Delta i * cell F i j))
             - item vols (k - j - 1) ^ 2 / 2) * item Delta j
            + item vols (k - j - 1) * normals (rng_pos w + draw_index k j)%nat
              * sqrt (item Delta j)))%R.
Proof.
  intros Hs HD Hv HF0.
  destruct (simulate_path_ok normals steps Delta vols F0 w Hs HD Hv HF0)
    as (F & w' & Hrun & [Hsh Hcell] & Hpos & _).
  exists F, w'. split; [exact Hrun|]. split; [exact Hpos|].
  split; [exact Hsh|]. split; [|split].
  { intros k Hk. rewrite Hcell by lia.
    replace (0 <=? k) with true by (symmetry; apply Z.leb_le; lia).
    apply path_column_0. }
  { intros k j Hk Hkj Hj. rewrite Hcell by lia.
    now replace (j <=? k) with false by (symmetry; apply Z.leb_gt; lia). }
  intros k j Hk Hj. split; [apply draw_index_bound; lia|]. split.
  - intros k' j' Hk' Hj' E. apply draw_index_inj; auto; lia.
  - rewrite Hcell by lia.
    replace (j + 1 <=? k) with true by (symmetry; apply Z.leb_le; lia).
    rewrite path_column_succ by lia.
    change (lognormal_step Delta vols
              (path_column normals Delta vols F0 (rng_pos w) j) k j
              (normals (rng_pos w + draw_index k j)%nat)
            = lognormal_step Delta vols (fun i => cell F i j) k j
                (normals (rng_pos w + draw_index k j)%nat)).
    apply lognormal_step_ext; [lia|].
    intros i Hi. rewrite Hcell by lia.
    now replace (j <=? i) with true by (symmetry; apply Z.leb_le; lia).
Qed.

Lemma update_rule_witness :
  exists F w',
    simulate_path (fun n => INR (S n)) 4 [0.25%R; 0.25%R; 0.25%R]
      [0.2%R; 0.3%R; 0.4%R]
      [[0.03%R; 0%R; 0%R]; [0.04%R; 0%R; 0%R]; [0.05%R; 0%R; 0%R]]
      (mkWorld 0 [])
    = (Ok F, w') /\
    rng_pos w' = (0 + draw_index (4 - 1) 0)%nat /\
    shape F (4 - 1) (4 - 1) /\
    (forall k, 0 <= k <= 4 - 2 ->
       cell F k 0 =
       cell [[0.03%R; 0%R; 0%R]; [0.04%R; 0%R; 0%R]; [0.05%R; 0%R; 0%R]] k 0) /\
    (forall k j, 0 <= k -> k < j -> j <= 4 - 2 -> cell F k j = 0%R) /\
    forall k j, 1 <= k <= 4 - 2 -> 0 <= j <= k - 1 ->
      (draw_index k j < draw_index (4 - 1) 0)%nat /\
      (forall k' j', 1 <= k' <= 4 - 2 -> 0 <= j' <= k' - 1 ->
         draw_index k' j' = draw_index k j -> k' = k /\ j' = j) /\
      cell F k (j + 1) =
      (cell F k j *
       exp ((sigma (j + 1) k
               (fun i =>
                  item [0.25%R; 0.25%R; 0.25%R] i * cell F i j
                  * item [0.2%R; 0.3%R; 0.4%R] (i - j - 1)
                  * item [0.2%R; 0.3%R; 0.4%R] (k - j - 1)
                  / (1 + item [0.25%R; 0.25%R; 0.25%R] i * cell F i j))
             - item [0.2%R; 0.3%R; 0.4%R] (k - j - 1) ^ 2 / 2)
            * item [0.25%R; 0.25%R; 0.25%R] j
            + item [0.2%R; 0.3%R; 0.4%R] (k - j - 1)
              * INR (S (0 + draw_index k j))
              * sqrt (item [0.25%R; 0.25%R; 0.25%R] j)))%R.
Proof.
  apply (update_rule (fun n => INR (S n)) 4 [0.25%R; 0.25%R; 0.25%R]
           [0.2%R; 0.3%R; 0.4%R]
           [[0.03%R; 0%R; 0%R]; [0.04%R; 0%R; 0%R]; [0.05%R; 0%R; 0%R]]
           (mkWorld 0 [])).
  - lia.
  - reflexivity.
  - cbn. lia.
  - split; [reflexivity|]. repeat constructor.
Defined.

(** C2, as the code has it.  For every [k] in [0, steps-2] the initial
    forward rate is [F[k][0] = (1 / Delta[k]) * (B0[k] / B0[k+1] - 1)],
    with [Delta[k] = time_step], and every path, from any place of any
    stream of draws, has that value in column 0.  Column 0 of the
    averaged output is the sum of [N] copies of it, added one by one to
    0, divided by [N]: no draw enters it, and for [N = 1] it is the
    initial rate itself. *)
Theorem initial_column_average (normals : nat -> R) (time_step maturity : R)
  (zero_curve vols : array) (N steps : Z) (w : world) :
  number_of_steps time_step maturity = Ok steps ->
  1 <= steps -> steps <= len zero_curve -> steps - 1 <= len vols ->
  exists Delta B_0 F0 avg w',
    np_full (steps - 1) time_step = Ok Delta /\
    bond_prices steps zero_curve w = (Ok B_0, w) /\
    initial_forward_rates steps Delta B_0 w = (Ok F0, w) /\
    one_factor_LIBOR_Market_Model normals time_step maturity zero_curve vols N w
    = (Ok avg, w') /\
    forall k, 0 <= k <= steps - 2 ->
      item Delta k = time_step /\
      cell F0 k 0 = (1 / item Delta k * (item B_0 k / item B_0 (k + 1) - 1))%R /\
      (forall draws w1, exists F w2,
         simulate_path draws steps Delta vols F0 w1 = (Ok F, w2) /\
         cell F k 0 = cell F0 k 0) /\
      cell avg k 0
      = (fold_left Rplus (repeat (cell F0 k 0) (Z.to_nat N)) 0 / IZR N)%R /\
      (N = 1 -> cell avg k 0 = cell F0 k 0).
Proof.
  intros Hsteps Hs Hzc Hv.
  destruct (run_stages normals time_step maturity zero_curve vols N steps w
              Hsteps Hs Hzc Hv) as (B & F0 & Fs & w' & HB & HF0 & HF0sh & Hrun & HFs).
  assert (HD : len (Delta_of steps time_step) = steps - 1)
    by (apply len_repeat; lia).
  exists (Delta_of steps time_step), B, F0. eexists; exists w'.
  split; [apply np_full_ok; lia|]. split; [exact HB|]. split; [exact HF0|].
  split; [exact Hrun|]. intros k Hk.
  destruct (bond_prices_ok steps zero_curve w ltac:(lia)) as (B' & HB' & HBlen & _).
  assert (B' = B) by congruence. subst B'.
  destruct (initial_forward_rates_ok steps (Delta_of steps time_step) B w Hs HD HBlen)
    as (F0' & HF0' & _ & Hcol & _).
  assert (F0' = F0) by congruence. subst F0'.
  pose proof (paths_from_shape _ _ _ _ _ _ _ _ HFs) as Hsh.
  assert (Hz : shape (zeros_of steps) (steps - 1) (steps - 1))
    by (apply shape_zeros; lia).
  assert (Hpath : forall F, In F Fs -> cell F k 0 = cell F0 k 0).
  { intros F HF.
    destruct (paths_from_cell _ _ _ _ _ _ _ _ _ HFs HF) as (i & _ & _ & Hcell).
    rewrite Hcell by lia.
    now replace (0 <=? k) with true by (symmetry; apply Z.leb_le; lia). }
  assert (Havg : cell (matrix_div (accumulate Fs (zeros_of steps)) N) k 0
                 = (fold_left Rplus (repeat (cell F0 k 0) (Z.to_nat N)) 0
                    / IZR N)%R).
  { rewrite (cell_matrix_div _ (steps - 1) N k 0
               (accumulate_shape Fs _ _ Hz Hsh) ltac:(lia) ltac:(lia)).
    rewrite (accumulate_cell Fs (zeros_of steps) (steps - 1) k 0 Hz Hsh
               ltac:(lia) ltac:(lia)).
    unfold zeros_of at 1. rewrite cell_zeros by lia.
    rewrite (map_constant (fun F => cell F k 0) Fs (cell F0 k 0) Hpath).
    now destruct HFs as [-> _]. }
  split; [apply item_repeat; lia|]. split; [apply Hcol; lia|]. split; [|split].
  - intros draws w1.
    destruct (simulate_path_ok draws steps (Delta_of steps time_step) vols F0 w1
                Hs HD Hv HF0sh) as (F & w2 & Hsim & [_ Hcell] & _).
    exists F, w2. split; [exact Hsim|]. rewrite Hcell by lia.
    now replace (0 <=? k) with true by (symmetry; apply Z.leb_le; lia).
  - exact Havg.
  - intros ->. rewrite Havg. change (Z.to_nat 1) with 1%nat.
    cbn [repeat fold_left]. field.
Qed.

Lemma initial_column_average_witness :
  exists Delta B_0 F0 avg w',
    np_full (3 - 1) 0.25 = Ok Delta /\
    bond_prices 3 [0.01%R; 0.02%R; 0.03%R] (mkWorld 0 []) = (Ok B_0, mkWorld 0 []) /\
    initial_forward_rates 3 Delta B_0 (mkWorld 0 []) = (Ok F0, mkWorld 0 []) /\
    one_factor_LIBOR_Market_Model (fun n => INR (S n)) 0.25 0.5
      [0.01%R; 0.02%R; 0.03%R] [0.2%R; 0.3%R] 3 (mkWorld 0 [])
    = (Ok avg, w') /\
    forall k, 0 <= k <= 3 - 2 ->
      item Delta k = 0.25%R /\
      cell F0 k 0 = (1 / item Delta k * (item B_0 k / item B_0 (k + 1) - 1))%R /\
      (forall draws w1, exists F w2,
         simulate_path draws 3 Delta [0.2%R; 0.3%R] F0 w1 = (Ok F, w2) /\
         cell F k 0 = cell F0 k 0) /\
      cell avg k 0
      = (fold_left Rplus (repeat (cell F0 k 0) (Z.to_nat 3)) 0 / IZR 3)%R /\
      (3 = 1 -> cell avg k 0 = cell F0 k 0).
Proof.
  apply (initial_column_average (fun n => INR (S n)) 0.25 0.5
           [0.01%R; 0.02%R; 0.03%R] [0.2%R; 0.3%R] 3 3 (mkWorld 0 [])).
  - rewrite number_of_steps_nonzero by lra.
    replace (0.5 / 0.25)%R with (IZR 2) by lra.
    now rewrite py_int_IZR.
  - lia.
  - cbn. lia.
  - cbn. lia.
Defined.

Module F64_average.

Import PrimFloat.

(** On a grid of two points, with [time_step = maturity = 1] and the zero
    curve [0.5, 0], whatever NumPy's exponential and draws are and for
    any power that is exact at [1.5 ** 1] and [1 ** 2], the call with
    [N = 1] returns the initial rate [1 / 1.5 - 1] and the call with
    [N = 3] returns another number. *)
Lemma two_point_grid (np : F64.numpy) :
  F64.np_power np 1.5 1 = 1.5%float ->
  F64.np_power np 1 2 = 1%float ->
  fst (F64.one_factor_LIBOR_Market_Model np 1 1 [0.5; 0]%float [0.25%float] 1
         (mkWorld 0 []))
  = Ok [[(-0x1.5555555555556p-2)%float]] /\
  fst (F64.one_factor_LIBOR_Market_Model np 1 1 [0.5; 0]%float [0.25%float] 3
         (mkWorld 0 []))
  = Ok [[(-0x1.5555555555555p-2)%float]].
Proof.
  destruct np as [e p d]. cbn [F64.np_power]. intros H1 H2. split.
  - vm_compute. rewrite H1, H2. vm_compute. reflexivity.
  - vm_compute. rewrite H1, H2. vm_compute. reflexivity.
Qed.

(** C2 fails in binary64.  With [time_step = maturity = 1] and the zero
    curve [0.5, 0] the initial forward rate of tenor 0 is
    [(1 / 1) * ((1 / 1.5) / (1 / 1) - 1) = -0x1.5555555555556p-2]; the
    call with [N = 1] returns it, and the call with [N = 3] returns
    [-0x1.5555555555555p-2], the rounded sum of three copies divided by
    3, which Python's [==] tells apart from it. *)
Lemma average_depends_on_N :
  (1 / 1 * (1 / 1.5 / (1 / 1) - 1))%float = (-0x1.5555555555556p-2)%float /\
  fst (F64.one_factor_LIBOR_Market_Model F64.numpy_without_updates 1 1
         [0.5; 0]%float [0.25%float] 1 (mkWorld 0 []))
  = Ok [[(-0x1.5555555555556p-2)%float]] /\
  fst (F64.one_factor_LIBOR_Market_Model F64.numpy_without_updates 1 1
         [0.5; 0]%float [0.25%float] 3 (mkWorld 0 []))
  = Ok [[(-0x1.5555555555555p-2)%float]] /\
  ((-0x1.5555555555556p-2) =? (-0x1.5555555555555p-2))%float = false.
Proof.
  split; [vm_compute; reflexivity|].
  destruct (two_point_grid F64.numpy_without_updates) as [H1 H3];
    [vm_compute; reflexivity|vm_compute; reflexivity|].
  split; [exact H1|]. split; [exact H3|]. vm_compute. reflexivity.
Qed.

End F64_average.

(** C3.  For every [i] in [0, steps-1] the discount factor is
    [B0[i] = 1 / (1 + zero_curve[i]) ^ (i + 1)]. *)
Theorem discount_factors (steps : Z) (zero_curve : array) (w : world) :
  0 <= steps <= len zero_curve ->
  exists B_0,
    bond_prices steps zero_curve w = (Ok B_0, w) /\
    len B_0 = steps /\
    forall i, 0 <= i <= steps - 1 ->
      getitem B_0 i = Ok (1 / (1 + item zero_curve i) ^ Z.to_nat (i + 1))%R.
Proof.
  intros Hs.
  destruct (bond_prices_ok steps zero_curve w Hs) as (B & HB & Hlen & Hi).
  exists B. split; [exact HB|]. split; [exact Hlen|].
  intros i H. rewrite getitem_item by lia.
  rewrite Hi by lia. now rewrite np_power_pow by lia.
Qed.

Lemma discount_factors_witness :
  exists B_0,
    bond_prices 2 [0%R; 1%R] (mkWorld 0 []) = (Ok B_0, mkWorld 0 []) /\
    len B_0 = 2 /\
    forall i, 0 <= i <= 2 - 1 ->
      getitem B_0 i = Ok (1 / (1 + item [0%R; 1%R] i) ^ Z.to_nat (i + 1))%R.
Proof.
  apply (discount_factors 2 [0%R; 1%R] (mkWorld 0 [])). cbn. lia.
Defined.

(** C4.  When [len(zero_curve) < steps] or
    [len(forward_rate_volatilities) < steps - 1] the call raises the
    [ValueError] of that length check; the world is the one of the call,
    so no draw was taken and no matrix touched, and no matrix is
    returned. *)
Theorem length_checks_fail_fast (normals : nat -> R) (time_step maturity : R)
  (zero_curve vols : array) (N steps : Z) (w : world) :
  number_of_steps time_step maturity = Ok steps ->
  len zero_curve < steps \/ len vols < steps - 1 ->
  exists msg,
    one_factor_LIBOR_Market_Model normals time_step maturity zero_curve vols N w
    = (Raise (ValueError msg), w) /\
    (len zero_curve < steps -> msg = zero_curve_too_short) /\
    (steps <= len zero_curve -> msg = volatilities_too_short).
Proof.
  intros Hsteps Hlen. unfold one_factor_LIBOR_Market_Model.
  rewrite (bind_lift _ _ _ _ Hsteps).
  destruct (Z.ltb_spec (len zero_curve) steps) as [Hzc|Hzc].
  - exists zero_curve_too_short. split; [reflexivity|]. split; [auto|lia].
  - destruct (Z.ltb_spec (len vols) (steps - 1)) as [Hv|Hv]; [|lia].
    exists volatilities_too_short. split; [reflexivity|]. split; [lia|auto].
Qed.

Lemma length_checks_fail_fast_witness :
  exists msg,
    one_factor_LIBOR_Market_Model (fun _ => 0%R) 1 2 [0%R; 0%R] [1%R; 1%R] 5
      (mkWorld 0 [])
    = (Raise (ValueError msg), mkWorld 0 []) /\
    (len [0%R; 0%R] < 3 -> msg = zero_curve_too_short) /\
    (3 <= len [0%R; 0%R] -> msg = volatilities_too_short).
Proof.
  apply (length_checks_fail_fast (fun _ => 0%R) 1 2 [0%R; 0%R] [1%R; 1%R] 5 3
           (mkWorld 0 [])).
  - exact (number_of_steps_IZR 2).
  - left. cbn. lia.
Defined.

Lemma accumulate_empty (Fs : list matrix) : accumulate Fs [] = [].
Proof. induction Fs as [|F Fs IH]; [reflexivity|exact IH]. Qed.

(** C5, as the code has it.  With [N <= 0] and inputs that pass the
    length checks, the call raises nothing: the path loop does not run
    (no draw is taken) and the zero accumulator divided by [N] is
    returned. *)
Theorem nonpositive_N_returns (normals : nat -> R) (time_step maturity : R)
  (zero_curve vols : array) (N steps : Z) (w : world) :
  number_of_steps time_step maturity = Ok steps ->
  1 <= steps -> steps <= len zero_curve -> steps - 1 <= len vols ->
  N <= 0 ->
  exists w',
    one_factor_LIBOR_Market_Model normals time_step maturity zero_curve vols N w
    = (Ok (matrix_div (zeros_of steps) N), w') /\
    rng_pos w' = rng_pos w.
Proof.
  intros Hsteps Hs Hzc Hv HN.
  destruct (run_ok normals time_step maturity zero_curve vols N steps w
              Hsteps Hs Hzc Hv)
    as (F0 & Fs & w' & Hrun & _ & _ & [Hlen _] & Hpos & _).
  replace (Z.to_nat N) with 0%nat in * by lia.
  destruct Fs as [|F Fs]; [|discriminate Hlen].
  exists w'. split; [exact Hrun|]. rewrite Hpos. lia.
Qed.

Lemma nonpositive_N_returns_witness :
  exists w',
    one_factor_LIBOR_Market_Model (fun _ => 0%R) 1 2
      [0%R; 0%R; 0%R] [1%R; 1%R] (-1) (mkWorld 0 [])
    = (Ok (matrix_div (zeros_of 3) (-1)), w') /\
    rng_pos w' = rng_pos (mkWorld 0 []).
Proof.
  apply (nonpositive_N_returns (fun _ => 0%R) 1 2 [0%R; 0%R; 0%R] [1%R; 1%R]
           (-1) 3 (mkWorld 0 [])).
  - exact (number_of_steps_IZR 2).
  - lia.
  - cbn. lia.
  - cbn. lia.
  - lia.
Defined.

(** C5 fails at [N = 0]: the call returns a one-cell matrix holding
    [0 / 0], and raises nothing. *)
Lemma zero_N_returns :
  fst (one_factor_LIBOR_Market_Model (fun _ => 0%R) 1 1 [0%R; 0%R] [1%R] 0
         (mkWorld 0 []))
  = Ok [[(0 / 0)%R]].
Proof.
  destruct (run_ok (fun _ => 0%R) 1 1 [0%R; 0%R] [1%R] 0 2 (mkWorld 0 [])
              (number_of_steps_IZR 1) ltac:(lia) ltac:(cbn; lia) ltac:(cbn; lia))
    as (F0 & Fs & w' & Hrun & _ & _ & [Hlen _] & _).
  destruct Fs as [|F Fs]; [|discriminate Hlen].
  rewrite Hrun. reflexivity.
Qed.

(** C6, as the code has it.  There is no positivity check.  With
    [time_step = 0] the call raises [ZeroDivisionError] from the division
    itself; with any other [time_step] it computes
    [steps = int(maturity / time_step) + 1], truncating toward zero,
    which is [floor(maturity / time_step) + 1] when both are positive;
    and whatever the signs, a call with [steps >= 1] that passes the
    length checks returns a matrix. *)
Theorem steps_without_positivity_check (normals : nat -> R)
  (time_step maturity : R) (zero_curve vols : array) (N : Z) (w : world) :
  (time_step = 0%R ->
   one_factor_LIBOR_Market_Model normals time_step maturity zero_curve vols N w
   = (Raise ZeroDivisionError, w)) /\
  (time_step <> 0%R ->
   exists steps,
     number_of_steps time_step maturity = Ok steps /\
     steps = py_int (maturity / time_step) + 1 /\
     ((0 < time_step)%R -> (0 < maturity)%R ->
      (IZR (steps - 1) <= maturity / time_step < IZR (steps - 1) + 1)%R) /\
     (1 <= steps -> steps <= len zero_curve -> steps - 1 <= len vols ->
      exists avg w',
        one_factor_LIBOR_Market_Model normals time_step maturity
          zero_curve vols N w = (Ok avg, w'))).
Proof.
  split.
  - intros ->. unfold one_factor_LIBOR_Market_Model.
    now rewrite number_of_steps_zero.
  - intros Hts. exists (py_int (maturity / time_step) + 1).
    split; [now apply number_of_steps_nonzero|]. split; [reflexivity|]. split.
    + intros Hpos Hm.
      assert (Hq : (0 <= maturity / time_step)%R).
      { apply Rlt_le, Rdiv_lt_0_compat; assumption. }
      rewrite py_int_nonneg by exact Hq.
      replace (Int_part (maturity / time_step) + 1 - 1)
        with (Int_part (maturity / time_step)) by lia.
      destruct (base_Int_part (maturity / time_step)). lra.
    + intros Hs Hzc Hv.
      destruct (run_ok normals time_step maturity zero_curve vols N _ w
                  (number_of_steps_nonzero time_step maturity Hts) Hs Hzc Hv)
        as (F0 & Fs & w' & Hrun & _).
      eexists; exists w'; exact Hrun.
Qed.

(** C6 fails at [maturity = 0], where the call returns the empty matrix,
    and at [time_step = maturity = -1], where it returns a one-cell
    matrix. *)
Lemma nonpositive_parameters_accepted :
  fst (one_factor_LIBOR_Market_Model (fun _ => 0%R) 1 0 [0%R] [] 1
         (mkWorld 0 []))
  = Ok [] /\
  exists x,
    fst (one_factor_LIBOR_Market_Model (fun _ => 0%R) (-1) (-1)
           [0%R; 0%R] [1%R] 1 (mkWorld 0 []))
    = Ok [[x]].
Proof.
  split.
  - destruct (run_ok (fun _ => 0%R) 1 0 [0%R] [] 1 1 (mkWorld 0 [])
                (number_of_steps_IZR 0) ltac:(lia) ltac:(cbn; lia) ltac:(cbn; lia))
      as (F0 & Fs & w' & Hrun & _).
    rewrite Hrun. cbn [fst]. change (zeros_of 1) with (@nil (list R)).
    now rewrite accumulate_empty.
  - assert (Hsteps : number_of_steps (-1) (-1) = Ok 2).
    { rewrite number_of_steps_nonzero by lra.
      replace (-1 / -1)%R with (IZR 1) by (cbn; field).
      now rewrite py_int_IZR. }
    destruct (run_ok (fun _ => 0%R) (-1) (-1) [0%R; 0%R] [1%R] 1 2 (mkWorld 0 [])
                Hsteps ltac:(lia) ltac:(cbn; lia) ltac:(cbn; lia))
      as (F0 & Fs & w' & Hrun & _ & _ & HFs & _).
    rewrite Hrun. cbn [fst].
    pose proof (paths_from_shape _ _ _ _ _ _ _ _ HFs) as Hsh.
    assert (Hz : shape (zeros_of 2) (2 - 1) (2 - 1)) by (apply shape_zeros; lia).
    pose proof (shape_matrix_div _ _ 1 (accumulate_shape Fs _ _ Hz Hsh)) as [Hr Hc].
    destruct (matrix_div (accumulate Fs (zeros_of 2)) 1) as [|row [|row' rest]];
      try (unfold len in Hr; cbn [length] in Hr; lia).
    inversion Hc as [|? ? Hrow _]; subst.
    destruct row as [|x [|y row]];
      try (unfold len in Hrow; cbn [length] in Hrow; lia).
    now exists x.
Qed.

(** C7, as the code has it.  The simulation checks no numeric domain:
    a call with [steps >= 1] that passes the length checks returns the
    average of the matrices of [N] paths, whatever the rates, the
    volatilities and the draws. *)
Theorem no_numeric_domain_check (normals : nat -> R) (time_step maturity : R)
  (zero_curve vols : array) (N steps : Z) (w : world) :
  number_of_steps time_step maturity = Ok steps ->
  1 <= steps -> steps <= len zero_curve -> steps - 1 <= len vols ->
  exists Fs w',
    one_factor_LIBOR_Market_Model normals time_step maturity zero_curve vols N w
    = (Ok (matrix_div (accumulate Fs (zeros_of steps)) N), w') /\
    length Fs = Z.to_nat N /\
    Forall (fun F => shape F (steps - 1) (steps - 1)) Fs.
Proof.
  intros Hsteps Hs Hzc Hv.
  destruct (run_ok normals time_step maturity zero_curve vols N steps w
              Hsteps Hs Hzc Hv) as (F0 & Fs & w' & Hrun & _ & _ & HFs & _).
  exists Fs, w'. split; [exact Hrun|]. split; [now destruct HFs|].
  exact (paths_from_shape _ _ _ _ _ _ _ _ HFs).
Qed.

Lemma no_numeric_domain_check_witness :
  exists Fs w',
    one_factor_LIBOR_Market_Model (fun _ => 0%R) 1 2
      [0%R; 0%R; (-2)%R] [1%R; 1%R] 1 (mkWorld 0 [])
    = (Ok (matrix_div (accumulate Fs (zeros_of 3)) 1), w') /\
    length Fs = Z.to_nat 1 /\
    Forall (fun F => shape F (3 - 1) (3 - 1)) Fs.
Proof.
  apply (no_numeric_domain_check (fun _ => 0%R) 1 2 [0%R; 0%R; (-2)%R]
           [1%R; 1%R] 1 3 (mkWorld 0 [])).
  - exact (number_of_steps_IZR 2).
  - lia.
  - cbn. lia.
  - cbn. lia.
Defined.

(** C7 fails on the case it names.  With [time_step = 1] and the zero
    curve [0, 0, -2] the initial rate of tenor 1 is [-2 <= -1 / Delta[1]],
    so the denominator [1 + Delta[1] * F[1][0]] of the drift of
    [F[1][1]] is [-1]; the call returns a matrix all the same, with that
    rate in it. *)
Lemma nonpositive_denominator_accepted :
  exists avg w',
    one_factor_LIBOR_Market_Model (fun _ => 0%R) 1 2
      [0%R; 0%R; (-2)%R] [1%R; 1%R] 1 (mkWorld 0 [])
    = (Ok avg, w') /\
    cell avg 1 0 = (-2)%R /\
    (cell avg 1 0 <= - 1 / item (Delta_of 3 1) 1)%R /\
    (1 + item (Delta_of 3 1) 1 * cell avg 1 0 = -1)%R.
Proof.
  destruct (run_ok (fun _ => 0%R) 1 2 [0%R; 0%R; (-2)%R] [1%R; 1%R] 1 3
              (mkWorld 0 []) (number_of_steps_IZR 2)
              ltac:(lia) ltac:(cbn; lia) ltac:(cbn; lia))
    as (F0 & Fs & w' & Hrun & _ & Hcol & HFs & _).
  eexists; exists w'; split; [exact Hrun|].
  assert (Hinit : initial_forward_rate 1 [0%R; 0%R; (-2)%R] 1 = (-2)%R).
  { unfold initial_forward_rate, discount_factor.
    change (item [0%R; 0%R; (-2)%R] 1) with 0%R.
    change (item [0%R; 0%R; (-2)%R] (1 + 1)) with (-2)%R.
    change (Z.to_nat (1 + 1)) with 2%nat.
    change (Z.to_nat (1 + 1 + 1)) with 3%nat.
    cbn [pow]. field. }
  assert (Hcell : cell (matrix_div (accumulate Fs (zeros_of 3)) 1) 1 0 = (-2)%R).
  { rewrite (average_cell _ _ _ 3 _ _ 1 Fs 1 0 (-2)%R ltac:(lia) HFs
               ltac:(lia) ltac:(lia)).
    - now apply average_cell_pos.
    - intros F HF.
      destruct (paths_from_cell _ _ _ _ _ _ _ _ _ HFs HF) as (i & _ & _ & Hc).
      rewrite Hc by lia. change (0 <=? 1) with true. cbv iota.
      rewrite path_column_0, Hcol by lia. exact Hinit. }
  split; [exact Hcell|]. rewrite Hcell.
  change (item (Delta_of 3 1) 1) with 1%R. split; lra.
Qed.

(** ** Zero volatility *)








(** C9.  Every indexed access of the run to a per-path matrix is logged,
    and every logged access is an allowed one: a write [F[row][col]] has
    [col <= row], and a read made while the update of [F[k][j+1]] is
    computed is of [F[row][j]] with [j + 1 <= row <= k].  So no cell with
    [col > row] is read or written by index. *)
Theorem access_discipline (normals : nat -> R) (time_step maturity : R)
  (zero_curve vols : array) (N steps : Z) (w : world) :
  number_of_steps time_step maturity = Ok steps ->
  1 <= steps -> steps <= len zero_curve -> steps - 1 <= len vols ->
  exists avg w' new,
    one_factor_LIBOR_Market_Model normals time_step maturity zero_curve vols N w
    = (Ok avg, w') /\
    trace w' = trace w ++ new /\
    forall a, In a new ->
      match a with
      | Wr row col => 0 <= col <= row /\ row <= steps - 2
      | Rd k j row col =>
          col = j /\ 0 <= j /\ j + 1 <= row <= k /\ k <= steps - 2
      end.
Proof.
  intros Hsteps Hs Hzc Hv.
  destruct (run_ok normals time_step maturity zero_curve vols N steps w
              Hsteps Hs Hzc Hv)
    as (F0 & Fs & w' & Hrun & _ & _ & _ & _ & new & Htrace & Hnew).
  eexists; exists w', new. split; [exact Hrun|]. split; [exact Htrace|].
  intros a Ha. rewrite Forall_forall in Hnew. specialize (Hnew a Ha).
  destruct a as [row col|k j row col]; cbn in Hnew; lia.
Qed.

Lemma access_discipline_witness :
  exists avg w' new,
    one_factor_LIBOR_Market_Model (fun _ => 0%R) 1 3
      [0%R; 0%R; 0%R; 0%R] [1%R; 1%R; 1%R] 2 (mkWorld 0 [])
    = (Ok avg, w') /\
    trace w' = trace (mkWorld 0 []) ++ new /\
    forall a, In a new ->
      match a with
      | Wr row col => 0 <= col <= row /\ row <= 4 - 2
      | Rd k j row col =>
          col = j /\ 0 <= j /\ j + 1 <= row <= k /\ k <= 4 - 2
      end.
Proof.
  apply (access_discipline (fun _ => 0%R) 1 3 [0%R; 0%R; 0%R; 0%R]
           [1%R; 1%R; 1%R] 2 4 (mkWorld 0 [])).
  - exact (number_of_steps_IZR 3).
  - lia.
  - cbn. lia.
  - cbn. lia.
Defined.

(** The log of one path on three tenors: the initial column, then the
    updates of [F[1][1]], [F[2][1]] and [F[2][2]] with their reads. *)
Example simulate_path_trace :
  trace (snd (simulate_path (fun _ => 0%R) 4 [1%R; 1%R; 1%R] [1%R; 1%R; 1%R]
                [[1%R; 0%R; 0%R]; [1%R; 0%R; 0%R]; [1%R; 0%R; 0%R]]
                (mkWorld 0 [])))
  = [Wr 0 0; Wr 1 0; Wr 2 0;
     Rd 1 0 1 0; Rd 1 0 1 0; Rd 1 0 1 0; Wr 1 1;
     Rd 2 0 1 0; Rd 2 0 1 0; Rd 2 0 2 0; Rd 2 0 2 0; Rd 2 0 2 0; Wr 2 1;
     Rd 2 1 2 1; Rd 2 1 2 1; Rd 2 1 2 1; Wr 2 2].
Proof. reflexivity. Qed.

(** C10.  In the returned matrix, of [steps - 1] rows and columns, every
    entry with column [j] greater than its row [k] is zero.  ([N] is not
    0: the cells of the output are then quotients by zero.) *)
Theorem upper_triangle_zero (normals : nat -> R) (time_step maturity : R)
  (zero_curve vols : array) (N steps : Z) (w : world) :
  number_of_steps time_step maturity = Ok steps ->
  1 <= steps -> steps <= len zero_curve -> steps - 1 <= len vols ->
  N <> 0 ->
  exists avg w',
    one_factor_LIBOR_Market_Model normals time_step maturity zero_curve vols N w
    = (Ok avg, w') /\
    shape avg (steps - 1) (steps - 1) /\
    forall k j, 0 <= k -> k < j -> j <= steps - 2 -> cell avg k j = 0%R.
Proof.
  intros Hsteps Hs Hzc Hv _.
  destruct (run_ok normals time_step maturity zero_curve vols N steps w
              Hsteps Hs Hzc Hv) as (F0 & Fs & w' & Hrun & _ & _ & HFs & _).
  eexists; exists w'. split; [exact Hrun|].
  pose proof (paths_from_shape _ _ _ _ _ _ _ _ HFs) as Hsh.
  assert (Hz : shape (zeros_of steps) (steps - 1) (steps - 1))
    by (apply shape_zeros; lia).
  split; [apply shape_matrix_div, accumulate_shape; assumption|].
  intros k j Hk Hkj Hj.
  rewrite (average_cell _ _ _ steps _ _ N Fs k j 0%R Hs HFs ltac:(lia) ltac:(lia)).
  - unfold Rdiv. now rewrite Rmult_0_r, Rmult_0_l.
  - intros F HF.
    destruct (paths_from_cell _ _ _ _ _ _ _ _ _ HFs HF) as (i & _ & _ & Hcell).
    rewrite Hcell by lia.
    now replace (j <=? k) with false by (symmetry; apply Z.leb_gt; lia).
Qed.

Lemma upper_triangle_zero_witness :
  exists avg w',
    one_factor_LIBOR_Market_Model (fun n => INR n) 1 3
      [0%R; 0%R; 0%R; 0%R] [1%R; 1%R; 1%R] 2 (mkWorld 0 [])
    = (Ok avg, w') /\
    shape avg (4 - 1) (4 - 1) /\
    forall k j, 0 <= k -> k < j -> j <= 4 - 2 -> cell avg k j = 0%R.
Proof.
  apply (upper_triangle_zero (fun n => INR n) 1 3 [0%R; 0%R; 0%R; 0%R]
           [1%R; 1%R; 1%R] 2 4 (mkWorld 0 [])).
  - exact (number_of_steps_IZR 3).
  - lia.
  - cbn. lia.
  - cbn. lia.
  - lia.
Defined.

(** * Further properties of the code *)

(** ** Dimensions that are not positive *)

Lemma time_grid_negative (steps : Z) (time_step : R) (w : world) :
  steps < 0 ->
  time_grid steps time_step w = (Raise (ValueError negative_dimensions), w).
Proof.
  intros H. unfold time_grid, bind, lift, np_zeros.
  apply Z.ltb_lt in H. now rewrite H.
Qed.

Lemma run_nonpositive_steps (normals : nat -> R) (time_step maturity : R)
  (zero_curve vols : array) (N steps : Z) (w : world) :
  number_of_steps time_step maturity = Ok steps ->
  steps <= 0 ->
  one_factor_LIBOR_Market_Model normals time_step maturity zero_curve vols N w
  = (Raise (ValueError negative_dimensions), w).
Proof.
  intros Hsteps Hs. unfold one_factor_LIBOR_Market_Model.
  rewrite (bind_lift _ _ _ _ Hsteps).
  replace (len zero_curve <? steps) with false
    by (symmetry; apply Z.ltb_ge; unfold len; lia).
  replace (len vols <? steps - 1) with false
    by (symmetry; apply Z.ltb_ge; unfold len; lia).
  destruct (Z_lt_le_dec steps 0) as [Hneg|Hzero].
  - unfold bind at 1. now rewrite time_grid_negative.
  - assert (steps = 0) by lia. subst steps.
    destruct (time_grid_ok 0 time_step w ltac:(lia)) as (t & Ht & _).
    rewrite (bind_ok _ _ _ _ _ Ht). reflexivity.
Qed.

(** X1.  When [steps <= 0] both length checks pass, whatever the arrays, and
    the call fails with NumPy's [ValueError] for a negative dimension:
    from [np.zeros(steps)] when [steps < 0], from [np.full((steps - 1), ...)]
    when [steps = 0].  Nothing was drawn or logged. *)
Theorem nonpositive_steps_raise (normals : nat -> R) (time_step maturity : R)
  (zero_curve vols : array) (N steps : Z) (w : world) :
  number_of_steps time_step maturity = Ok steps ->
  steps <= 0 ->
  one_factor_LIBOR_Market_Model normals time_step maturity zero_curve vols N w
  = (Raise (ValueError negative_dimensions), w).
Proof.
  exact (run_nonpositive_steps normals time_step maturity zero_curve vols N
           steps w).
Qed.

Lemma nonpositive_steps_raise_witness :
  one_factor_LIBOR_Market_Model (fun _ => 0%R) 1 (-1) [0%R; 0%R] [1%R] 5
    (mkWorld 0 [])
  = (Raise (ValueError negative_dimensions), mkWorld 0 []).
Proof.
  apply (nonpositive_steps_raise (fun _ => 0%R) 1 (-1) [0%R; 0%R] [1%R] 5 0
           (mkWorld 0 [])).
  - exact (number_of_steps_IZR (-1)).
  - lia.
Defined.

(** ** The number of draws *)

Lemma draw_index_total (steps : Z) :
  draw_index (steps - 1) 0 = Z.to_nat ((steps - 1) * (steps - 2) / 2).
Proof.
  unfold draw_index. f_equal.
  replace (steps - 1 - 1) with (steps - 2) by lia. lia.
Qed.

(** X2.  A call that passes the checks takes [(steps - 1) (steps - 2) / 2]
    draws for each of the [N] paths, one per update, and none when
    [N <= 0]: the stream is left at that distance from where the call
    found it. *)
Theorem draws_taken (normals : nat -> R) (time_step maturity : R)
  (zero_curve vols : array) (N steps : Z) (w : world) :
  number_of_steps time_step maturity = Ok steps ->
  1 <= steps -> steps <= len zero_curve -> steps - 1 <= len vols ->
  exists avg w',
    one_factor_LIBOR_Market_Model normals time_step maturity zero_curve vols N w
    = (Ok avg, w') /\
    rng_pos w' =
    (rng_pos w + Z.to_nat N * Z.to_nat ((steps - 1) * (steps - 2) / 2))%nat.
Proof.
  intros Hsteps Hs Hzc Hv.
  destruct (run_ok normals time_step maturity zero_curve vols N steps w
              Hsteps Hs Hzc Hv) as (F0 & Fs & w' & Hrun & _ & _ & _ & Hpos & _).
  eexists; exists w'. split; [exact Hrun|].
  now rewrite Hpos, draw_index_total.
Qed.

Lemma draws_taken_witness :
  exists avg w',
    one_factor_LIBOR_Market_Model (fun n => INR n) 1 3
      [0%R; 0%R; 0%R; 0%R] [1%R; 1%R; 1%R] 2 (mkWorld 7 [])
    = (Ok avg, w') /\
    rng_pos w' =
    (rng_pos (mkWorld 7 []) + Z.to_nat 2 * Z.to_nat ((4 - 1) * (4 - 2) / 2))%nat.
Proof.
  apply (draws_taken (fun n => INR n) 1 3 [0%R; 0%R; 0%R; 0%R]
           [1%R; 1%R; 1%R] 2 4 (mkWorld 7 [])).
  - exact (number_of_steps_IZR 3).
  - lia.
  - cbn. lia.
  - cbn. lia.
Defined.

(** ** The time grid *)

(** X3.  The time grid has [steps] points, starts at 0, and each point is
    the one before it plus [time_step], as the loop adds it:
    [t[i + 1] = t[i] + time_step]; and [Delta] holds [steps - 1] copies of
    [time_step]. *)
Theorem time_grid_points (steps : Z) (time_step : R) (w : world) :
  1 <= steps ->
  exists t Delta,
    time_grid steps time_step w = (Ok t, w) /\
    np_full (steps - 1) time_step = Ok Delta /\
    len t = steps /\ len Delta = steps - 1 /\
    item t 0 = 0%R /\
    (forall i, 0 <= i < steps - 1 ->
       item t (i + 1) = (item t i + time_step)%R /\
       item Delta i = time_step).
Proof.
  intros Hs. unfold time_grid.
  rewrite (bind_lift _ _ _ _ (np_zeros_ok steps ltac:(lia))).
  destruct (for_range_inv
              (fun n (s : array * R) w' =>
                 len (fst s) = steps /\ w' = w /\
                 (n = 0 -> snd s = 0%R) /\
                 (0 < n -> snd s = (item (fst s) (n - 1) + time_step)%R) /\
                 (0 < n -> item (fst s) 0 = 0%R) /\
                 forall i, 0 <= i < n - 1 ->
                   item (fst s) (i + 1) = (item (fst s) i + time_step)%R)
              0 steps
              (fun i '(t, time) =>
                 t <- lift (setitem t i time) ;; ret (t, (time + time_step)%R))
              (repeat 0%R (Z.to_nat steps), 0%R) w)
    as ([t time] & w' & Hrun & Hlen & -> & _ & _ & H0 & Ht).
  - lia.
  - cbn [fst snd]. split; [apply len_repeat; lia|]. split; [reflexivity|].
    split; [reflexivity|]. repeat split; intros; lia.
  - intros n [t time] w' Hn (Hlen & -> & Hz & Htime & H0 & Ht).
    cbn [fst snd] in *.
    rewrite (bind_lift _ _ _ _ (setitem_in_range t n time ltac:(lia))).
    eexists; eexists; split; [reflexivity|]. cbn [fst snd].
    split; [now rewrite len_list_set|]. split; [reflexivity|].
    split; [intros; lia|]. split; [|split].
    + intros _. replace (n + 1 - 1) with n by lia.
      now rewrite item_list_set_eq by lia.
    + intros _. destruct (Z.eq_dec n 0) as [->|Hne].
      * rewrite item_list_set_eq by lia. now apply Hz.
      * rewrite item_list_set_neq by lia. apply H0. lia.
    + intros i Hi. destruct (Z.eq_dec (i + 1) n) as [<-|Hne].
      * rewrite item_list_set_eq by lia.
        rewrite item_list_set_neq by lia.
        rewrite Htime by lia. now replace (i + 1 - 1) with i by lia.
      * rewrite !item_list_set_neq by lia. apply Ht. lia.
  - cbn [fst] in *. rewrite (bind_ok _ _ _ _ _ Hrun).
    exists t, (repeat time_step (Z.to_nat (steps - 1))).
    split; [reflexivity|]. split; [apply np_full_ok; lia|].
    split; [exact Hlen|]. split; [apply len_repeat; lia|].
    split; [apply H0; lia|].
    intros i Hi. split; [apply Ht; lia|apply item_repeat; lia].
Qed.

Lemma time_grid_points_witness :
  exists t Delta,
    time_grid 3 0.1 (mkWorld 0 []) = (Ok t, mkWorld 0 []) /\
    np_full (3 - 1) 0.1 = Ok Delta /\
    len t = 3 /\ len Delta = 3 - 1 /\
    item t 0 = 0%R /\
    (forall i, 0 <= i < 3 - 1 ->
       item t (i + 1) = (item t i + 0.1)%R /\
       item Delta i = 0.1%R).
Proof.
  apply (time_grid_points 3 0.1 (mkWorld 0 [])). lia.
Defined.

(** ** A horizon shorter than one time step *)

Lemma py_int_small (q : R) : (-1 < q < 1)%R -> py_int q = 0.
Proof.
  intros [Hlo Hhi]. unfold py_int. destruct (Rle_dec 0 q) as [H|H].
  - symmetry. apply Int_part_spec. lra.
  - rewrite <- (Int_part_spec (- q) 0) by lra. reflexivity.
Qed.

Lemma no_access_without_rows (n : Z) (l : list access) :
  n <= 0 -> Forall (ok_access n) l -> l = [].
Proof.
  intros Hn Hl. destruct l as [|a l]; [reflexivity|].
  inversion Hl as [|? ? Ha _]; subst.
  destruct a as [row col|k j row col]; cbn in Ha; lia.
Qed.

(** X4.  When [maturity / time_step] lies strictly between -1 and 1 the grid
    has the single point 0: for any non-empty zero curve, any
    volatilities and any [N], the call returns the empty matrix without
    an error, a draw or an access. *)
Theorem short_horizon_empty (normals : nat -> R) (time_step maturity : R)
  (zero_curve vols : array) (N : Z) (w : world) :
  time_step <> 0%R -> (-1 < maturity / time_step < 1)%R ->
  1 <= len zero_curve ->
  one_factor_LIBOR_Market_Model normals time_step maturity zero_curve vols N w
  = (Ok [], w).
Proof.
  intros Hts Hq Hzc.
  assert (Hsteps : number_of_steps time_step maturity = Ok 1).
  { rewrite number_of_steps_nonzero by exact Hts.
    now rewrite py_int_small by exact Hq. }
  destruct (run_ok normals time_step maturity zero_curve vols N 1 w
              Hsteps ltac:(lia) Hzc ltac:(unfold len; lia))
    as (F0 & Fs & w' & Hrun & _ & _ & _ & Hpos & new & Htrace & Hnew).
  rewrite Hrun. change (zeros_of 1) with (@nil (list R)).
  rewrite accumulate_empty. cbn [matrix_div map]. f_equal.
  apply no_access_without_rows in Hnew; [|lia]. subst new.
  rewrite app_nil_r in Htrace.
  change (draw_index (1 - 1) 0) with 0%nat in Hpos.
  rewrite Nat.mul_0_r, Nat.add_0_r in Hpos.
  destruct w as [p tr], w' as [p' tr']. cbn in Hpos, Htrace. now subst.
Qed.

Lemma short_horizon_empty_witness :
  one_factor_LIBOR_Market_Model (fun _ => 0%R) 1 0.5 [0.01%R] [] 10
    (mkWorld 0 [])
  = (Ok [], mkWorld 0 []).
Proof.
  apply (short_horizon_empty (fun _ => 0%R) 1 0.5 [0.01%R] [] 10 (mkWorld 0 [])).
  - lra.
  - lra.
  - cbn. lia.
Defined.

(** ** One path *)

(** Two matrices of one shape with the same cells are the same matrix. *)
Lemma matrix_ext (m m' : matrix) (r c : Z) :
  shape m r c -> shape m' r c ->
  (forall i j, 0 <= i < r -> 0 <= j < c -> cell m i j = cell m' i j) ->
  m = m'.
Proof.
  intros Hm Hm' H.
  assert (Hlen : length m = length m')
    by (destruct Hm as [Hr _], Hm' as [Hr' _]; unfold len in *; lia).
  apply (nth_ext m m' [] [] Hlen). intros a Ha.
  assert (Hi : 0 <= Z.of_nat a < r)
    by (destruct Hm as [Hr _]; unfold len in Hr; lia).
  pose proof (shape_row m r c _ Hm Hi) as Hrow.
  pose proof (shape_row m' r c _ Hm' Hi) as Hrow'.
  rewrite Nat2Z.id in Hrow, Hrow'. unfold len in Hrow, Hrow'.
  apply (nth_ext _ _ 0%R 0%R); [lia|]. intros b Hb.
  specialize (H (Z.of_nat a) (Z.of_nat b) Hi ltac:(lia)).
  rewrite (cell_nth m r c), (cell_nth m' r c) in H by (auto; lia).
  now rewrite !Nat2Z.id in H.
Qed.

Lemma monte_carlo_single (normals : nat -> R) (steps : Z) (Delta vols : array)
  (F0 F : matrix) (w w' : world) :
  1 <= steps ->
  simulate_path normals steps Delta vols F0 w = (Ok F, w') ->
  monte_carlo normals steps Delta vols F0 1 w
  = (Ok (matrix_add (zeros_of steps) F), w').
Proof.
  intros Hs Hsim. unfold monte_carlo.
  rewrite (bind_lift _ _ _ _ (np_zeros2_ok (steps - 1) (steps - 1)
                                ltac:(lia) ltac:(lia))).
  rewrite for_range_step by lia.
  assert (Hbody :
            (forward_rate <- simulate_path normals steps Delta vols F0 ;;
             ret (matrix_add (zeros_of steps) forward_rate)) w
            = (Ok (matrix_add (zeros_of steps) F), w'))
    by now rewrite (bind_ok _ _ _ _ _ Hsim).
  rewrite (bind_ok _ _ _ _ _ Hbody). apply for_range_empty. lia.
Qed.

Lemma single_average (steps : Z) (F : matrix) :
  1 <= steps -> shape F (steps - 1) (steps - 1) ->
  matrix_div (matrix_add (zeros_of steps) F) 1 = F.
Proof.
  intros Hs HF.
  assert (Hz : shape (zeros_of steps) (steps - 1) (steps - 1))
    by (apply shape_zeros; lia).
  apply (matrix_ext _ _ (steps - 1) (steps - 1)).
  - now apply shape_matrix_div, shape_matrix_add.
  - exact HF.
  - intros i j Hi Hj.
    rewrite (cell_matrix_div _ (steps - 1)) by (auto using shape_matrix_add).
    rewrite (cell_matrix_add _ _ (steps - 1)) by auto.
    unfold zeros_of. rewrite cell_zeros by lia. lra.
Qed.

(** X6.  With [N = 1] the call returns the matrix of its one path as it is:
    the result of [simulate_path] on the [Delta] and the initial forward
    rates that the call builds, with the world that path leaves. *)
Theorem single_path_output (normals : nat -> R) (time_step maturity : R)
  (zero_curve vols : array) (steps : Z) (w : world) :
  number_of_steps time_step maturity = Ok steps ->
  1 <= steps -> steps <= len zero_curve -> steps - 1 <= len vols ->
  exists Delta B_0 F0 F w',
    np_full (steps - 1) time_step = Ok Delta /\
    bond_prices steps zero_curve w = (Ok B_0, w) /\
    initial_forward_rates steps Delta B_0 w = (Ok F0, w) /\
    simulate_path normals steps Delta vols F0 w = (Ok F, w') /\
    one_factor_LIBOR_Market_Model normals time_step maturity zero_curve vols 1 w
    = (Ok F, w').
Proof.
  intros Hsteps Hs Hzc Hv.
  assert (HD : len (Delta_of steps time_step) = steps - 1)
    by (apply len_repeat; lia).
  destruct (time_grid_ok steps time_step w ltac:(lia)) as (t & Ht & _).
  destruct (bond_prices_ok steps zero_curve w ltac:(lia)) as (B & HB & HBlen & _).
  destruct (initial_forward_rates_ok steps (Delta_of steps time_step) B w Hs HD HBlen)
    as (F0 & HF0 & HF0sh & _).
  destruct (simulate_path_ok normals steps (Delta_of steps time_step) vols F0 w
              Hs HD Hv HF0sh) as (F & w' & Hsim & [HFsh _] & _).
  exists (Delta_of steps time_step), B, F0, F, w'.
  split; [apply np_full_ok; lia|]. split; [exact HB|]. split; [exact HF0|].
  split; [exact Hsim|].
  unfold one_factor_LIBOR_Market_Model.
  rewrite (bind_lift _ _ _ _ Hsteps).
  replace (len zero_curve <? steps) with false by (symmetry; apply Z.ltb_ge; lia).
  replace (len vols <? steps - 1) with false by (symmetry; apply Z.ltb_ge; lia).
  rewrite (bind_ok _ _ _ _ _ Ht).
  rewrite (bind_lift _ _ _ _ (np_full_ok (steps - 1) time_step ltac:(lia))).
  fold (Delta_of steps time_step).
  rewrite (bind_ok _ _ _ _ _ HB), (bind_ok _ _ _ _ _ HF0).
  rewrite (bind_ok _ _ _ _ _ (monte_carlo_single _ _ _ _ _ _ _ _ Hs Hsim)).
  unfold ret. now rewrite single_average.
Qed.

Lemma single_path_output_witness :
  exists Delta B_0 F0 F w',
    np_full (3 - 1) 1 = Ok Delta /\
    bond_prices 3 [0%R; 0%R; 0%R] (mkWorld 0 []) = (Ok B_0, mkWorld 0 []) /\
    initial_forward_rates 3 Delta B_0 (mkWorld 0 []) = (Ok F0, mkWorld 0 []) /\
    simulate_path (fun n => INR n) 3 Delta [1%R; 1%R] F0 (mkWorld 0 [])
    = (Ok F, w') /\
    one_factor_LIBOR_Market_Model (fun n => INR n) 1 2
      [0%R; 0%R; 0%R] [1%R; 1%R] 1 (mkWorld 0 [])
    = (Ok F, w').
Proof.
  apply (single_path_output (fun n => INR n) 1 2 [0%R; 0%R; 0%R] [1%R; 1%R]
           3 (mkWorld 0 [])).
  - exact (number_of_steps_IZR 2).
  - lia.
  - cbn. lia.
  - cbn. lia.
Defined.

(** ** Inputs that are not used *)

Lemma item_firstn (a b : array) (n i : Z) :
  firstn (Z.to_nat n) a = firstn (Z.to_nat n) b ->
  n <= len a -> n <= len b -> 0 <= i < n ->
  item a i = item b i.
Proof.
  intros E Ha Hb Hi. rewrite !item_nth by lia.
  assert (Hlt : (Z.to_nat i <? Z.to_nat n)%nat = true)
    by (apply Nat.ltb_lt; lia).
  pose proof (nth_firstn (Z.to_nat n) a (Z.to_nat i) 0%R) as Ea.
  pose proof (nth_firstn (Z.to_nat n) b (Z.to_nat i) 0%R) as Eb.
  rewrite Hlt in Ea, Eb. now rewrite <- Ea, <- Eb, E.
Qed.

Lemma lognormal_step_congr (Delta vols vols' : array) (prev prev' : Z -> R)
  (k j : Z) (e : R) :
  0 <= j < k ->
  (forall i, j + 1 <= i <= k -> prev i = prev' i) ->
  (forall i, 0 <= i <= k - j - 1 -> item vols i = item vols' i) ->
  lognormal_step Delta vols prev k j e = lognormal_step Delta vols' prev' k j e.
Proof.
  intros Hj Hp Hv. unfold lognormal_step, drift.
  rewrite (sigma_ext (j + 1) k (drift_term Delta vols prev k j)
             (drift_term Delta vols' prev' k j)).
  - now rewrite (Hp k), (Hv (k - j - 1)) by lia.
  - intros i Hi. unfold drift_term.
    now rewrite (Hp i), (Hv (i - j - 1)), (Hv (k - j - 1)) by lia.
Qed.

Lemma column_congr (normals : nat -> R) (Delta vols vols' : array)
  (init init' : Z -> R) (p0 : nat) (n : Z) :
  (forall i, 0 <= i < n -> init i = init' i) ->
  (forall i, 0 <= i < n - 1 -> item vols i = item vols' i) ->
  forall (j : nat) (k : Z), Z.of_nat j <= k < n ->
    column normals Delta vols init p0 j k
    = column normals Delta vols' init' p0 j k.
Proof.
  intros Hinit Hv j. induction j as [|j IH]; intros k Hk; cbn [column].
  - apply Hinit. lia.
  - apply lognormal_step_congr.
    + lia.
    + intros i Hi. apply IH. lia.
    + intros i Hi. apply Hv. lia.
Qed.

Lemma paths_from_congr (normals : nat -> R) (Delta vols vols' : array) (n : Z)
  (F0 F0' : matrix) (p0 : nat) (N : Z) (Fs Fs' : list matrix) :
  (forall i, 0 <= i < n -> cell F0 i 0 = cell F0' i 0) ->
  (forall i, 0 <= i < n - 1 -> item vols i = item vols' i) ->
  paths_from normals Delta vols n F0 p0 N Fs ->
  paths_from normals Delta vols' n F0' p0 N Fs' ->
  Fs = Fs'.
Proof.
  intros Hinit Hv [Hlen HFs] [Hlen' HFs'].
  apply (nth_ext Fs Fs' [] []); [congruence|]. intros a Ha.
  assert (Ha' : (a < length Fs')%nat) by lia.
  destruct (HFs a _ (nth_error_nth' Fs [] Ha)) as [Hsh Hcell].
  destruct (HFs' a _ (nth_error_nth' Fs' [] Ha')) as [Hsh' Hcell'].
  apply (matrix_ext _ _ n n Hsh Hsh'). intros i j Hi Hj.
  rewrite Hcell, Hcell' by lia.
  destruct (Z.leb_spec j i) as [Hji|_]; [|reflexivity].
  unfold path_column.
  apply (column_congr normals Delta vols vols' _ _ _ n); auto. lia.
Qed.

(** X8.  The output depends on the first [steps] zero rates and on the first
    [steps - 2] volatilities only: the length check asks for
    [steps - 1] volatilities, and the last of them is never used.  Two
    calls whose arrays agree on those prefixes return the same matrix. *)
Theorem unused_inputs_ignored (normals : nat -> R) (time_step maturity : R)
  (zero_curve zero_curve' vols vols' : array) (N steps : Z) (w : world) :
  number_of_steps time_step maturity = Ok steps ->
  1 <= steps ->
  steps <= len zero_curve -> steps <= len zero_curve' ->
  steps - 1 <= len vols -> steps - 1 <= len vols' ->
  firstn (Z.to_nat steps) zero_curve = firstn (Z.to_nat steps) zero_curve' ->
  firstn (Z.to_nat (steps - 2)) vols = firstn (Z.to_nat (steps - 2)) vols' ->
  fst (one_factor_LIBOR_Market_Model normals time_step maturity
         zero_curve vols N w)
  = fst (one_factor_LIBOR_Market_Model normals time_step maturity
           zero_curve' vols' N w).
Proof.
  intros Hsteps Hs Hzc Hzc' Hv Hv' Ezc Ev.
  destruct (run_ok normals time_step maturity zero_curve vols N steps w
              Hsteps Hs Hzc Hv) as (F0 & Fs & w1 & Hrun & _ & Hcol & HFs & _).
  destruct (run_ok normals time_step maturity zero_curve' vols' N steps w
              Hsteps Hs Hzc' Hv') as (F0' & Fs' & w2 & Hrun' & _ & Hcol' & HFs' & _).
  rewrite Hrun, Hrun'. cbn [fst]. do 3 f_equal.
  apply (paths_from_congr normals (Delta_of steps time_step) vols vols'
           (steps - 1) F0 F0' (rng_pos w) N); auto.
  - intros i Hi. rewrite Hcol, Hcol' by lia.
    unfold initial_forward_rate, discount_factor.
    now rewrite (item_firstn zero_curve zero_curve' steps i),
      (item_firstn zero_curve zero_curve' steps (i + 1)) by (auto; lia).
  - intros i Hi.
    destruct (Z_le_gt_dec steps 2) as [Hsmall|Hbig]; [lia|].
    apply (item_firstn vols vols' (steps - 2)); auto; lia.
Qed.

Lemma unused_inputs_ignored_witness :
  fst (one_factor_LIBOR_Market_Model (fun n => INR n) 1 3
         [0.01%R; 0.02%R; 0.03%R; 0.04%R] [1%R; 2%R; 3%R] 2 (mkWorld 0 []))
  = fst (one_factor_LIBOR_Market_Model (fun n => INR n) 1 3
           [0.01%R; 0.02%R; 0.03%R; 0.04%R; 9%R] [1%R; 2%R; 7%R; 8%R] 2
           (mkWorld 0 [])).
Proof.
  apply (unused_inputs_ignored (fun n => INR n) 1 3
           [0.01%R; 0.02%R; 0.03%R; 0.04%R]
           [0.01%R; 0.02%R; 0.03%R; 0.04%R; 9%R]
           [1%R; 2%R; 3%R] [1%R; 2%R; 7%R; 8%R] 2 4 (mkWorld 0 [])).
  - exact (number_of_steps_IZR 3).
  - lia.
  - cbn. lia.
  - cbn. lia.
  - cbn. lia.
  - cbn. lia.
  - reflexivity.
  - reflexivity.
Defined.

(** ** The outcomes of a call *)

(** X9.  Once [steps] is computed a call ends in one of four ways, each
    under its own condition: the length error of the zero curve, the
    length error of the volatilities, NumPy's error for a negative
    dimension, or a returned matrix.  So the length checks are enough to
    keep every index of the loops in range (no [IndexError] escapes), and
    a call that raises has taken no draw and touched no matrix. *)
Theorem outcomes_of_a_call (normals : nat -> R) (time_step maturity : R)
  (zero_curve vols : array) (N steps : Z) (w : world) :
  number_of_steps time_step maturity = Ok steps ->
  exists r,
    one_factor_LIBOR_Market_Model normals time_step maturity zero_curve vols N w
    = r /\
    ((len zero_curve < steps /\
      r = (Raise (ValueError zero_curve_too_short), w)) \/
     (steps <= len zero_curve /\ len vols < steps - 1 /\
      r = (Raise (ValueError volatilities_too_short), w)) \/
     (steps <= 0 /\
      r = (Raise (ValueError negative_dimensions), w)) \/
     (1 <= steps /\ steps <= len zero_curve /\ steps - 1 <= len vols /\
      exists avg w', r = (Ok avg, w'))).
Proof.
  intros Hsteps. eexists; split; [reflexivity|].
  destruct (Z_lt_le_dec (len zero_curve) steps) as [Hzc|Hzc].
  { left. split; [exact Hzc|]. unfold one_factor_LIBOR_Market_Model.
    rewrite (bind_lift _ _ _ _ Hsteps).
    now replace (len zero_curve <? steps) with true
      by (symmetry; apply Z.ltb_lt; lia). }
  right.
  destruct (Z_lt_le_dec (len vols) (steps - 1)) as [Hv|Hv].
  { left. split; [exact Hzc|]. split; [exact Hv|].
    unfold one_factor_LIBOR_Market_Model.
    rewrite (bind_lift _ _ _ _ Hsteps).
    replace (len zero_curve <? steps) with false
      by (symmetry; apply Z.ltb_ge; lia).
    now replace (len vols <? steps - 1) with true
      by (symmetry; apply Z.ltb_lt; lia). }
  right.
  destruct (Z_lt_le_dec steps 1) as [Hs|Hs].
  - left. split; [lia|].
    apply (run_nonpositive_steps _ _ _ _ _ _ steps); [exact Hsteps|lia].
  - right. split; [exact Hs|]. split; [exact Hzc|]. split; [exact Hv|].
    destruct (run_ok normals time_step maturity zero_curve vols N steps w
                Hsteps Hs Hzc Hv) as (F0 & Fs & w' & Hrun & _).
    eexists; exists w'; exact Hrun.
Qed.

Lemma outcomes_of_a_call_witness :
  exists r,
    one_factor_LIBOR_Market_Model (fun n => INR n) 1 3
      [0.01%R; 0.02%R; 0.03%R; 0.04%R] [1%R; 1%R] 2 (mkWorld 0 [])
    = r /\
    ((len [0.01%R; 0.02%R; 0.03%R; 0.04%R] < 4 /\
      r = (Raise (ValueError zero_curve_too_short), mkWorld 0 [])) \/
     (4 <= len [0.01%R; 0.02%R; 0.03%R; 0.04%R] /\ len [1%R; 1%R] < 4 - 1 /\
      r = (Raise (ValueError volatilities_too_short), mkWorld 0 [])) \/
     (4 <= 0 /\
      r = (Raise (ValueError negative_dimensions), mkWorld 0 [])) \/
     (1 <= 4 /\ 4 <= len [0.01%R; 0.02%R; 0.03%R; 0.04%R] /\
      4 - 1 <= len [1%R; 1%R] /\
      exists avg w', r = (Ok avg, w'))).
Proof.
  apply (outcomes_of_a_call (fun n => INR n) 1 3
           [0.01%R; 0.02%R; 0.03%R; 0.04%R] [1%R; 1%R] 2 4 (mkWorld 0 [])).
  exact (number_of_steps_IZR 3).
Defined.
